(** * Black-Scholes-Merton pricer: a shallow embedding of [BlackScholes.py]

    The Python class [Black_Scholes] stores seven attributes and offers six
    methods that read them.  Python floats are modelled as the real numbers
    [R] of the Standard Library, so every statement below is about exact real
    arithmetic; rounding, overflow and underflow of IEEE doubles are outside
    the model.  The partial operations of Python ([/], [math.log],
    [math.sqrt], reading a local that was never assigned) raise exceptions;
    they are modelled with an explicit result type, and the methods live in a
    state-and-exception monad over the object [self]. *)

From Stdlib Require Import Reals Lra Lia String List.
Import ListNotations.

Open Scope R_scope.

(** ** Exceptions and results *)

(** The exceptions the module can raise.  [UnboundLocalError] is what Python
    raises when a local name is read before any assignment to it;
    [ZeroDivisionError] comes from [/]; [ValueError] is the "math domain
    error" of [math.log] and [math.sqrt]. *)
Inductive exception : Set :=
| UnboundLocalError
| ZeroDivisionError
| ValueError.

Inductive result (A : Type) : Type :=
| Ok (a : A)
| Raise (e : exception).

Arguments Ok {A} a.
Arguments Raise {A} e.

(** The two kinds of failure a caller tells apart: a flag that is neither
    ["yes"] nor ["no"] (the never-assigned local), and an argument outside
    the domain of an arithmetic operation. *)
Inductive error_class : Set :=
| ConfigurationError
| DomainError.

Definition classify (e : exception) : error_class :=
  match e with
  | UnboundLocalError => ConfigurationError
  | ZeroDivisionError | ValueError => DomainError
  end.

(** ** The object *)

(** Attributes of an instance, as assigned by [__init__]. *)
Record Black_Scholes : Type := mkBlack_Scholes {
  K : R;
  T : R;
  So : R;
  r : R;
  q : R;
  mu : R;
  div : string
}.

(** [__init__(self, K, T_trm, So, r, q, mu, div)]: the term is given in
    months and stored in years. *)
Definition __init__ (K T_trm So r q mu : R) (div : string) : Black_Scholes :=
  {| K := K; T := T_trm / 12; So := So; r := r; q := q; mu := mu; div := div |}.

(** ** Methods as state-passing computations *)

(** A method receives [self] and hands back its outcome together with the
    object as it is after the call. *)
Definition method (A : Type) : Type :=
  Black_Scholes -> result A * Black_Scholes.

Definition ret {A : Type} (a : A) : method A :=
  fun self => (Ok a, self).

Definition raise {A : Type} (e : exception) : method A :=
  fun self => (Raise e, self).

Definition bind {A B : Type} (m : method A) (k : A -> method B) : method B :=
  fun self =>
    match m self with
    | (Ok a, self') => k a self'
    | (Raise e, self') => (Raise e, self')
    end.

Notation "x <- m ;; k" := (bind m (fun x => k))
  (at level 61, m at next level, right associativity).

(** Attribute read [self.f]. *)
Definition attr {A : Type} (f : Black_Scholes -> A) : method A :=
  fun self => (Ok (f self), self).

(** A partial arithmetic operation used inside a method. *)
Definition lift {A : Type} (x : result A) : method A :=
  fun self => (x, self).

(** Read of a local variable that is only assigned on some branches. *)
Definition load_fast {A : Type} (v : option A) : method A :=
  match v with
  | Some x => ret x
  | None => raise UnboundLocalError
  end.

(** ** Python arithmetic *)

(** True division [x / y]. *)
Definition truediv (x y : R) : result R :=
  if Req_dec_T y 0 then Raise ZeroDivisionError else Ok (x / y).

Module math.

Definition exp (x : R) : R := Rtrigo_def.exp x.

Definition log (x : R) : result R :=
  if Rlt_dec 0 x then Ok (ln x) else Raise ValueError.

Definition sqrt (x : R) : result R :=
  if Rle_dec 0 x then Ok (R_sqrt.sqrt x) else Raise ValueError.

End math.

(** ** The standard normal distribution ([scipy.stats.norm]) *)

Module norm.

(** Density: [exp(-x**2/2) / sqrt(2*pi)]. *)
Definition pdf (x : R) : R := exp (- x ^ 2 / 2) / sqrt (2 * PI).

Lemma pdf_continuity : continuity pdf.
Proof. unfold pdf. reg. Qed.

Lemma pdf_integrable (a b : R) : Riemann_integrable pdf a b.
Proof.
  destruct (Rle_dec a b) as [Hab | Hab].
  - apply continuity_implies_RiemannInt; [exact Hab |].
    intros x _. apply pdf_continuity.
  - apply RiemannInt_P1, continuity_implies_RiemannInt; [lra |].
    intros x _. apply pdf_continuity.
Qed.

(** Distribution function.  The density is even and its integral over the
    whole line is 1, so the mass below [x] is one half plus the signed
    integral of the density from [0] to [x]. *)
Definition cdf (x : R) : R := 1 / 2 + RiemannInt (pdf_integrable 0 x).

End norm.

(** ** The methods of [Black_Scholes] *)

(** [carry_benefits]: the locals [carry] and [exp_carry] are assigned on the
    ["yes"] and on the ["no"] branch only; the [return] statement reads them. *)
Definition carry_benefits : method (R * R) :=
  div1 <- attr div ;;
  locals <-
    (if (div1 =? "yes")%string then
       carry <- attr q ;;
       q' <- attr q ;; T' <- attr T ;;
       ret (Some carry, Some (math.exp (- q' * T')))
     else
       div2 <- attr div ;;
       if (div2 =? "no")%string then ret (Some 0, Some 1)
       else ret (None, None)) ;;
  carry <- load_fast (fst locals) ;;
  exp_carry <- load_fast (snd locals) ;;
  ret (carry, exp_carry).

Definition d1_d2 : method (R * R) :=
  carry <- carry_benefits ;;
  So' <- attr So ;; K' <- attr K ;;
  SoK <- lift (truediv So' K') ;;
  a <- lift (math.log SoK) ;;
  r' <- attr r ;; mu' <- attr mu ;; T' <- attr T ;;
  let b := (r' - fst carry + (pow mu' 2 / 2)) * T' in
  mu'' <- attr mu ;; T'' <- attr T ;;
  sqrtT <- lift (math.sqrt T'') ;;
  let c := mu'' * sqrtT in
  d1 <- lift (truediv (a + b) c) ;;
  let d2 := d1 - c in
  ret (d1, d2).

Definition call_put_options : method (R * R) :=
  carry <- carry_benefits ;;
  d <- d1_d2 ;;
  let Nd1_pos := norm.cdf (fst d) in
  let Nd2_pos := norm.cdf (snd d) in
  let Nd1_neg := norm.cdf (- fst d) in
  let Nd2_neg := norm.cdf (- snd d) in
  So' <- attr So ;;
  let a := So' * snd carry * Nd1_pos in
  K' <- attr K ;; r' <- attr r ;; T' <- attr T ;;
  let b := K' * math.exp (- r' * T') * Nd2_pos in
  let call := a - b in
  K'' <- attr K ;; r'' <- attr r ;; T'' <- attr T ;;
  let c := K'' * math.exp (- r'' * T'') * Nd2_neg in
  So'' <- attr So ;;
  let d := So'' * snd carry * Nd1_neg in
  let put := c - d in
  ret (call, put).

Definition equity_forward : method R :=
  FP <- attr K ;;
  St <- attr So ;;
  div1 <- attr div ;;
  locals <-
    (if (div1 =? "yes")%string then
       q' <- attr q ;; T' <- attr T ;;
       a <- lift (truediv St (math.exp (q' * T'))) ;;
       r' <- attr r ;; T'' <- attr T ;;
       b <- lift (truediv FP (math.exp (r' * T''))) ;;
       ret (Some a, Some b)
     else
       div2 <- attr div ;;
       if (div2 =? "no")%string then
         r' <- attr r ;; T' <- attr T ;;
         b <- lift (truediv FP (math.exp (r' * T'))) ;;
         ret (Some St, Some b)
       else ret (None, None)) ;;
  a <- load_fast (fst locals) ;;
  b <- load_fast (snd locals) ;;
  let NPV := a - b in
  ret NPV.

Definition delta : method (R * R) :=
  d <- d1_d2 ;;
  let Nd1_pos := norm.cdf (fst d) in
  let Nd1_neg := norm.cdf (- fst d) in
  q' <- attr q ;; T' <- attr T ;;
  let delta_call := math.exp (- q' * T') * Nd1_pos in
  q'' <- attr q ;; T'' <- attr T ;;
  let delta_put := - math.exp (- q'' * T'') * Nd1_neg in
  ret (delta_call, delta_put).

Definition gamma : method R :=
  d <- d1_d2 ;;
  let nd1 := norm.pdf (fst d) in
  q' <- attr q ;; T' <- attr T ;;
  let a := math.exp (- q' * T') in
  So' <- attr So ;; mu' <- attr mu ;; T'' <- attr T ;;
  sqrtT <- lift (math.sqrt T'') ;;
  let b := So' * mu' * sqrtT in
  ab <- lift (truediv a b) ;;
  let gamma := ab * nd1 in
  ret gamma.

(** ** Calling the methods one after another *)

Inductive operation : Set :=
| Op_carry_benefits
| Op_d1_d2
| Op_call_put_options
| Op_equity_forward
| Op_delta
| Op_gamma.

(** What a method hands back: a two-element list or a number. *)
Inductive output : Type :=
| Pair (x y : R)
| Scalar (x : R).

Definition as_pair (m : method (R * R)) : method output :=
  p <- m ;; ret (Pair (fst p) (snd p)).

Definition as_scalar (m : method R) : method output :=
  x <- m ;; ret (Scalar x).

Definition invoke (o : operation) : method output :=
  match o with
  | Op_carry_benefits => as_pair carry_benefits
  | Op_d1_d2 => as_pair d1_d2
  | Op_call_put_options => as_pair call_put_options
  | Op_equity_forward => as_scalar equity_forward
  | Op_delta => as_pair delta
  | Op_gamma => as_scalar gamma
  end.

(** The object after a sequence of calls whose outcomes (values or
    exceptions) are discarded by the caller. *)
Fixpoint after (history : list operation) (self : Black_Scholes)
  : Black_Scholes :=
  match history with
  | [] => self
  | o :: rest => after rest (snd (invoke o self))
  end.

(** The object built in the [__main__] block. *)
Definition bsm : Black_Scholes :=
  __init__ 4200 3 4100 0.01 0.012 0.15 "yes".

(** * Properties *)

(** ** The normal distribution *)

(** A derivative at [x] only depends on the function near [x]. *)
Lemma derivable_pt_lim_local (f g : R -> R) (a b x l : R) :
  a < x < b ->
  (forall y, a < y < b -> f y = g y) ->
  derivable_pt_lim g x l -> derivable_pt_lim f x l.
Proof.
  intros Hx Hfg Hg eps Heps.
  destruct (Hg eps Heps) as [delta Hdelta].
  assert (Hm : 0 < Rmin delta (Rmin (x - a) (b - x))).
  { apply Rmin_pos; [apply cond_pos | apply Rmin_pos; lra]. }
  exists (mkposreal _ Hm). intros h Hh0 Hh. simpl in Hh.
  assert (Hh1 : Rabs h < delta)
    by (eapply Rlt_le_trans; [exact Hh | apply Rmin_l]).
  assert (Hh2 : Rabs h < Rmin (x - a) (b - x))
    by (eapply Rlt_le_trans; [exact Hh | apply Rmin_r]).
  assert (Hh3 : Rabs h < x - a)
    by (eapply Rlt_le_trans; [exact Hh2 | apply Rmin_l]).
  assert (Hh4 : Rabs h < b - x)
    by (eapply Rlt_le_trans; [exact Hh2 | apply Rmin_r]).
  apply Rabs_def2 in Hh3. apply Rabs_def2 in Hh4.
  rewrite (Hfg (x + h)) by lra. rewrite (Hfg x) by lra.
  apply Hdelta; assumption.
Qed.

Lemma pdf_pos x : 0 < norm.pdf x.
Proof.
  unfold norm.pdf. apply Rdiv_lt_0_compat; [apply exp_pos |].
  apply sqrt_lt_R0. generalize PI_RGT_0. lra.
Qed.

Lemma pdf_even x : norm.pdf (- x) = norm.pdf x.
Proof. unfold norm.pdf. f_equal. f_equal. lra. Qed.

Lemma cdf_0 : norm.cdf 0 = 1 / 2.
Proof. unfold norm.cdf. rewrite RiemannInt_P9. lra. Qed.

(** The distribution function is a primitive of the density. *)
Lemma cdf_derivable x : derivable_pt_lim norm.cdf x (norm.pdf x).
Proof.
  set (a := Rmin 0 x - 1). set (b := Rmax 0 x + 1).
  assert (Ha0 : a < 0) by (unfold a; generalize (Rmin_l 0 x); lra).
  assert (Hax : a < x) by (unfold a; generalize (Rmin_r 0 x); lra).
  assert (Hxb : x < b) by (unfold b; generalize (Rmax_r 0 x); lra).
  assert (h : a <= b) by lra.
  assert (C0 : forall y, a <= y <= b -> continuity_pt norm.pdf y)
    by (intros y _; apply norm.pdf_continuity).
  pose (c := 1 / 2 - RiemannInt (norm.pdf_integrable a 0)).
  apply derivable_pt_lim_local
    with (g := (primitive h (FTC_P1 h C0) + fct_cte c)%F) (a := a) (b := b).
  - lra.
  - intros y Hy. unfold plus_fct, fct_cte, primitive, norm.cdf, c.
    destruct (Rle_dec a y) as [H1 | H1]; [| lra].
    destruct (Rle_dec y b) as [H2 | H2]; [| lra].
    rewrite <- (RiemannInt_P26 (norm.pdf_integrable a 0)
                  (norm.pdf_integrable 0 y) (FTC_P1 h C0 H1 H2)).
    lra.
  - replace (norm.pdf x) with (norm.pdf x + 0) by lra.
    apply derivable_pt_lim_plus.
    + apply RiemannInt_P28. lra.
    + apply derivable_pt_lim_const.
Qed.

Lemma cdf_opp_derivable x :
  derivable_pt_lim (fun y => norm.cdf (- y)) x (- norm.pdf x).
Proof.
  replace (- norm.pdf x) with (norm.pdf (- x) * -1) by (rewrite pdf_even; lra).
  apply (derivable_pt_lim_comp (- id)%F norm.cdf).
  - apply derivable_pt_lim_opp, derivable_pt_lim_id.
  - apply cdf_derivable.
Qed.

(** The mass below [x] and the mass below [- x] add up to 1. *)
Lemma cdf_symmetry x : norm.cdf x + norm.cdf (- x) = 1.
Proof.
  pose (g := fun y => norm.cdf y + norm.cdf (- y)).
  assert (Hg : forall y, derivable_pt_lim g y ((fun _ => 0) y)).
  { intro y. simpl. replace 0 with (norm.pdf y + - norm.pdf y) by lra.
    apply (derivable_pt_lim_plus norm.cdf (fun z => norm.cdf (- z))).
    - apply cdf_derivable.
    - apply cdf_opp_derivable. }
  assert (Hg0 : g 0 = 1).
  { unfold g. rewrite Ropp_0, cdf_0. lra. }
  change (g x = 1).
  destruct (Rtotal_order x 0) as [Hx | [Hx | Hx]].
  - destruct (MVT_cor2 g (fun _ => 0) x 0 Hx (fun c _ => Hg c))
      as [c [Hc _]]. lra.
  - subst x. exact Hg0.
  - destruct (MVT_cor2 g (fun _ => 0) 0 x Hx (fun c _ => Hg c))
      as [c [Hc _]]. lra.
Qed.

(** ** Running the monad *)

Lemma bind_Ok {A B : Type} (m : method A) (k : A -> method B)
      (self self' : Black_Scholes) (a : A) :
  m self = (Ok a, self') -> bind m k self = k a self'.
Proof. intros H. unfold bind. rewrite H. reflexivity. Qed.

Lemma bind_Raise {A B : Type} (m : method A) (k : A -> method B)
      (self self' : Black_Scholes) (e : exception) :
  m self = (Raise e, self') -> bind m k self = (Raise e, self').
Proof. intros H. unfold bind. rewrite H. reflexivity. Qed.

Ltac run_method :=
  unfold bind, attr, lift, ret, raise, load_fast; simpl.

(** ** [carry_benefits] *)

Lemma carry_benefits_yes (self : Black_Scholes) :
  div self = "yes"%string ->
  carry_benefits self = (Ok (q self, exp (- q self * T self)), self).
Proof.
  intros Hdiv. unfold carry_benefits. run_method.
  rewrite Hdiv. simpl. rewrite ?Hdiv. reflexivity.
Qed.

Lemma carry_benefits_no (self : Black_Scholes) :
  div self = "no"%string ->
  carry_benefits self = (Ok (0, 1), self).
Proof.
  intros Hdiv. unfold carry_benefits. run_method.
  rewrite Hdiv. simpl. rewrite ?Hdiv. reflexivity.
Qed.

Lemma carry_benefits_other (self : Black_Scholes) :
  div self <> "yes"%string -> div self <> "no"%string ->
  carry_benefits self = (Raise UnboundLocalError, self).
Proof.
  intros Hyes Hno. unfold carry_benefits. run_method.
  apply String.eqb_neq in Hyes, Hno. rewrite Hyes. simpl. rewrite Hno.
  reflexivity.
Qed.

(** With a recognised flag the discount factor is [exp (- carry * T)]. *)
Lemma carry_benefits_recognized (self : Black_Scholes) :
  div self = "yes"%string \/ div self = "no"%string ->
  exists carry exp_carry,
    carry_benefits self = (Ok (carry, exp_carry), self) /\
    exp_carry = exp (- carry * T self).
Proof.
  intros [Hdiv | Hdiv].
  - exists (q self), (exp (- q self * T self)).
    split; [apply carry_benefits_yes; exact Hdiv | reflexivity].
  - exists 0, 1. split; [apply carry_benefits_no; exact Hdiv |].
    replace (- 0 * T self) with 0 by lra. symmetry. apply exp_0.
Qed.

(** ** [d1_d2] *)

Lemma d1_d2_Ok (self : Black_Scholes) (carry exp_carry : R) :
  carry_benefits self = (Ok (carry, exp_carry), self) ->
  K self <> 0 -> 0 < So self / K self -> 0 <= T self ->
  mu self * sqrt (T self) <> 0 ->
  let d1 := (ln (So self / K self)
             + (r self - carry + mu self ^ 2 / 2) * T self)
            / (mu self * sqrt (T self)) in
  d1_d2 self = (Ok (d1, d1 - mu self * sqrt (T self)), self).
Proof.
  intros Hc HK HSoK HT Hden d1. unfold d1_d2.
  rewrite (bind_Ok _ _ _ _ _ Hc). run_method.
  unfold truediv, math.log, math.sqrt.
  destruct (Req_dec_T (K self) 0) as [E | _]; [contradiction |]. simpl.
  destruct (Rlt_dec 0 (So self / K self)) as [_ | N]; [| contradiction]. simpl.
  destruct (Rle_dec 0 (T self)) as [_ | N]; [| contradiction]. simpl.
  destruct (Req_dec_T (mu self * sqrt (T self)) 0) as [E | _];
    [contradiction |].
  reflexivity.
Qed.

Lemma valid_parameters (self : Black_Scholes) :
  0 < K self -> 0 < So self -> 0 < T self -> 0 < mu self ->
  K self <> 0 /\ 0 < So self / K self /\ 0 <= T self /\
  0 < mu self * sqrt (T self).
Proof.
  intros HK HSo HT Hmu. repeat split; try lra.
  - apply Rdiv_lt_0_compat; assumption.
  - apply Rmult_lt_0_compat; [assumption | apply sqrt_lt_R0; assumption].
Qed.

Lemma d1_d2_valid (self : Black_Scholes) (carry exp_carry : R) :
  carry_benefits self = (Ok (carry, exp_carry), self) ->
  0 < K self -> 0 < So self -> 0 < T self -> 0 < mu self ->
  let d1 := (ln (So self / K self)
             + (r self - carry + mu self ^ 2 / 2) * T self)
            / (mu self * sqrt (T self)) in
  d1_d2 self = (Ok (d1, d1 - mu self * sqrt (T self)), self).
Proof.
  intros Hc HK HSo HT Hmu.
  destruct (valid_parameters self HK HSo HT Hmu) as (H1 & H2 & H3 & H4).
  apply (d1_d2_Ok self carry exp_carry); auto. lra.
Qed.

(** C2. [carry_benefits] returns [(q, exp(-q*T))] when the flag is ["yes"]
    and [(0, 1)] when it is ["no"]; for every other flag it raises the
    configuration failure (the read of the never-assigned local) instead of
    returning a value. *)
Theorem carry_benefits_spec (self : Black_Scholes) :
  (div self = "yes"%string ->
   carry_benefits self = (Ok (q self, exp (- q self * T self)), self)) /\
  (div self = "no"%string ->
   carry_benefits self = (Ok (0, 1), self)) /\
  (div self <> "yes"%string -> div self <> "no"%string ->
   exists e, classify e = ConfigurationError /\
             carry_benefits self = (Raise e, self)).
Proof.
  split; [apply carry_benefits_yes |].
  split; [apply carry_benefits_no |].
  intros Hyes Hno. exists UnboundLocalError.
  split; [reflexivity | apply carry_benefits_other; assumption].
Qed.

(** The three cases on concrete objects. *)
Example carry_benefits_bsm :
  carry_benefits bsm = (Ok (0.012, exp (- (0.012) * (3 / 12))), bsm).
Proof. apply (carry_benefits_yes bsm). reflexivity. Qed.

Example carry_benefits_maybe :
  let self := __init__ 4200 3 4100 0.01 0.012 0.15 "maybe" in
  carry_benefits self = (Raise UnboundLocalError, self).
Proof. intros self. apply carry_benefits_other; discriminate. Qed.

(** C3. For positive strike, spot, term and volatility and a recognised
    flag, [d1_d2] on the object built by [__init__] returns
    [d1 = (ln(So/K) + (r - carry + mu^2/2)*T) / (mu*sqrt T)] and
    [d2 = d1 - mu*sqrt T], with [carry] the first component returned by
    [carry_benefits] and [T] the term in months divided by 12. *)
Theorem d1_d2_formula (K T_trm So r q mu : R) (div : string) :
  0 < K -> 0 < So -> 0 < T_trm / 12 -> 0 < mu ->
  div = "yes"%string \/ div = "no"%string ->
  let self := __init__ K T_trm So r q mu div in
  let T := T_trm / 12 in
  exists carry exp_carry,
    carry_benefits self = (Ok (carry, exp_carry), self) /\
    let d1 := (ln (So / K) + (r - carry + mu ^ 2 / 2) * T) / (mu * sqrt T) in
    let d2 := d1 - mu * sqrt T in
    d1_d2 self = (Ok (d1, d2), self).
Proof.
  intros HK HSo HT Hmu Hdiv self T.
  destruct (carry_benefits_recognized self Hdiv) as (carry & ec & Hc & _).
  exists carry, ec. split; [exact Hc |].
  apply (d1_d2_valid self carry ec Hc); assumption.
Qed.

(** On the object of the [__main__] block. *)
Lemma d1_d2_formula_witness :
  let T := 3 / 12 in
  exists carry exp_carry,
    carry_benefits bsm = (Ok (carry, exp_carry), bsm) /\
    let d1 := (ln (4100 / 4200) + (0.01 - carry + 0.15 ^ 2 / 2) * T)
              / (0.15 * sqrt T) in
    let d2 := d1 - 0.15 * sqrt T in
    d1_d2 bsm = (Ok (d1, d2), bsm).
Proof.
  apply (d1_d2_formula 4200 3 4100 0.01 0.012 0.15 "yes"); try lra.
  left. reflexivity.
Defined.

(** ** [call_put_options] *)

Lemma call_put_options_Ok (self : Black_Scholes) (carry exp_carry d1 d2 : R) :
  carry_benefits self = (Ok (carry, exp_carry), self) ->
  d1_d2 self = (Ok (d1, d2), self) ->
  call_put_options self =
  (Ok (So self * exp_carry * norm.cdf d1
       - K self * exp (- r self * T self) * norm.cdf d2,
       K self * exp (- r self * T self) * norm.cdf (- d2)
       - So self * exp_carry * norm.cdf (- d1)), self).
Proof.
  intros Hc Hd. unfold call_put_options.
  rewrite (bind_Ok _ _ _ _ _ Hc), (bind_Ok _ _ _ _ _ Hd). reflexivity.
Qed.

Lemma call_put_options_Raise (self : Black_Scholes) (carry exp_carry : R)
      (e : exception) :
  carry_benefits self = (Ok (carry, exp_carry), self) ->
  d1_d2 self = (Raise e, self) ->
  call_put_options self = (Raise e, self).
Proof.
  intros Hc Hd. unfold call_put_options.
  rewrite (bind_Ok _ _ _ _ _ Hc), (bind_Raise _ _ _ _ _ Hd). reflexivity.
Qed.

(** C1. For positive strike, spot, term and volatility and a recognised
    flag, [call_put_options] returns exactly
    [call = So*exp_carry*cdf(d1) - K*exp(-r*T)*cdf(d2)] and
    [put = K*exp(-r*T)*cdf(-d2) - So*exp_carry*cdf(-d1)], where [(d1, d2)] is
    what [d1_d2] returns and [exp_carry] is the discount factor returned by
    [carry_benefits]; the two differences are returned as they are, with no
    clamping at zero. *)
Theorem call_put_options_formula (self : Black_Scholes) :
  0 < K self -> 0 < So self -> 0 < T self -> 0 < mu self ->
  div self = "yes"%string \/ div self = "no"%string ->
  exists carry exp_carry d1 d2,
    carry_benefits self = (Ok (carry, exp_carry), self) /\
    d1_d2 self = (Ok (d1, d2), self) /\
    let call := So self * exp_carry * norm.cdf d1
                - K self * exp (- r self * T self) * norm.cdf d2 in
    let put := K self * exp (- r self * T self) * norm.cdf (- d2)
               - So self * exp_carry * norm.cdf (- d1) in
    call_put_options self = (Ok (call, put), self).
Proof.
  intros HK HSo HT Hmu Hdiv.
  destruct (carry_benefits_recognized self Hdiv) as (carry & ec & Hc & _).
  pose proof (d1_d2_valid self carry ec Hc HK HSo HT Hmu) as Hd.
  cbv zeta in Hd.
  exists carry, ec. do 2 eexists. split; [exact Hc |]. split; [exact Hd |].
  apply (call_put_options_Ok self carry ec _ _ Hc Hd).
Qed.

(** On the object of the [__main__] block. *)
Lemma call_put_options_formula_witness :
  exists carry exp_carry d1 d2,
    carry_benefits bsm = (Ok (carry, exp_carry), bsm) /\
    d1_d2 bsm = (Ok (d1, d2), bsm) /\
    let call := So bsm * exp_carry * norm.cdf d1
                - K bsm * exp (- r bsm * T bsm) * norm.cdf d2 in
    let put := K bsm * exp (- r bsm * T bsm) * norm.cdf (- d2)
               - So bsm * exp_carry * norm.cdf (- d1) in
    call_put_options bsm = (Ok (call, put), bsm).
Proof.
  apply (call_put_options_formula bsm); try (simpl; lra).
  left. reflexivity.
Defined.

(** C4. Put-call parity: for positive strike, spot, term and volatility
    and a recognised flag, the prices returned by [call_put_options] satisfy
    [call - put = So*exp_carry - K*exp(-r*T)], with [exp_carry] the discount
    factor returned by [carry_benefits]. *)
Theorem put_call_parity (self : Black_Scholes) :
  0 < K self -> 0 < So self -> 0 < T self -> 0 < mu self ->
  div self = "yes"%string \/ div self = "no"%string ->
  exists carry exp_carry call put,
    carry_benefits self = (Ok (carry, exp_carry), self) /\
    call_put_options self = (Ok (call, put), self) /\
    call - put = So self * exp_carry - K self * exp (- r self * T self).
Proof.
  intros HK HSo HT Hmu Hdiv.
  destruct (carry_benefits_recognized self Hdiv) as (carry & ec & Hc & _).
  pose proof (d1_d2_valid self carry ec Hc HK HSo HT Hmu) as Hd.
  cbv zeta in Hd. revert Hd.
  generalize ((ln (So self / K self)
               + (r self - carry + mu self ^ 2 / 2) * T self)
              / (mu self * sqrt (T self))).
  generalize (mu self * sqrt (T self)). intros c d1 Hd.
  exists carry, ec. do 2 eexists. split; [exact Hc |].
  split; [apply (call_put_options_Ok self carry ec _ _ Hc Hd) |].
  set (d2 := d1 - c).
  pose proof (cdf_symmetry d1). pose proof (cdf_symmetry d2).
  replace (norm.cdf (- d1)) with (1 - norm.cdf d1) by lra.
  replace (norm.cdf (- d2)) with (1 - norm.cdf d2) by lra.
  ring.
Qed.

(** On the object of the [__main__] block. *)
Lemma put_call_parity_witness :
  exists carry exp_carry call put,
    carry_benefits bsm = (Ok (carry, exp_carry), bsm) /\
    call_put_options bsm = (Ok (call, put), bsm) /\
    call - put = 4100 * exp_carry - 4200 * exp (- (0.01) * (3 / 12)).
Proof.
  apply (put_call_parity bsm); try (simpl; lra).
  left. reflexivity.
Defined.

(** ** [equity_forward] *)

Lemma truediv_exp (x y : R) : truediv x (math.exp y) = Ok (x / exp y).
Proof.
  unfold truediv, math.exp.
  destruct (Req_dec_T (exp y) 0) as [E | _]; [| reflexivity].
  pose proof (exp_pos y). lra.
Qed.

Lemma equity_forward_yes (self : Black_Scholes) :
  div self = "yes"%string ->
  equity_forward self =
  (Ok (So self / exp (q self * T self) - K self / exp (r self * T self)),
   self).
Proof.
  intros Hdiv. unfold equity_forward. run_method.
  rewrite Hdiv. simpl. rewrite !truediv_exp. reflexivity.
Qed.

Lemma equity_forward_no (self : Black_Scholes) :
  div self = "no"%string ->
  equity_forward self =
  (Ok (So self - K self / exp (r self * T self)), self).
Proof.
  intros Hdiv. unfold equity_forward. run_method.
  rewrite Hdiv. simpl. rewrite ?Hdiv. simpl. rewrite !truediv_exp.
  reflexivity.
Qed.

(** C6. With a recognised flag [equity_forward] returns [a - K/exp(r*T)],
    where [a = So/exp(q*T)] under ["yes"] and [a = So] under ["no"]; under
    ["no"] this is [So - K*exp(-r*T)]. *)
Theorem equity_forward_formula (self : Black_Scholes) :
  div self = "yes"%string \/ div self = "no"%string ->
  (div self = "yes"%string /\
   equity_forward self =
   (Ok (So self / exp (q self * T self) - K self / exp (r self * T self)),
    self))
  \/
  (div self = "no"%string /\
   equity_forward self =
   (Ok (So self - K self / exp (r self * T self)), self) /\
   equity_forward self =
   (Ok (So self - K self * exp (- r self * T self)), self)).
Proof.
  intros [Hdiv | Hdiv]; [left | right]; (split; [exact Hdiv |]).
  - apply equity_forward_yes; exact Hdiv.
  - rewrite (equity_forward_no self Hdiv). split; [reflexivity |].
    replace (- r self * T self) with (- (r self * T self)) by ring.
    rewrite exp_Ropp. reflexivity.
Qed.

(** On the object of the [__main__] block. *)
Lemma equity_forward_formula_witness :
  (div bsm = "yes"%string /\
   equity_forward bsm =
   (Ok (4100 / exp (0.012 * (3 / 12)) - 4200 / exp (0.01 * (3 / 12))), bsm))
  \/
  (div bsm = "no"%string /\
   equity_forward bsm = (Ok (So bsm - K bsm / exp (r bsm * T bsm)), bsm) /\
   equity_forward bsm =
   (Ok (So bsm - K bsm * exp (- r bsm * T bsm)), bsm)).
Proof.
  apply (equity_forward_formula bsm). left. reflexivity.
Defined.

(** The same object without dividends: the forward is
    [So - K*exp(-r*T)]. *)
Example equity_forward_no_dividend :
  let self := __init__ 4200 3 4100 0.01 0.012 0.15 "no" in
  equity_forward self = (Ok (4100 - 4200 / exp (0.01 * (3 / 12))), self).
Proof. intros self. apply (equity_forward_no self). reflexivity. Qed.

(** ** [delta] *)

Lemma delta_Ok (self : Black_Scholes) (d1 d2 : R) :
  d1_d2 self = (Ok (d1, d2), self) ->
  delta self =
  (Ok (exp (- q self * T self) * norm.cdf d1,
       - exp (- q self * T self) * norm.cdf (- d1)), self).
Proof.
  intros Hd. unfold delta. rewrite (bind_Ok _ _ _ _ _ Hd). reflexivity.
Qed.

Lemma delta_Raise (self : Black_Scholes) (e : exception) :
  d1_d2 self = (Raise e, self) -> delta self = (Raise e, self).
Proof.
  intros Hd. unfold delta. rewrite (bind_Raise _ _ _ _ _ Hd). reflexivity.
Qed.

(** C5. For positive strike, spot, term and volatility and a recognised
    flag, [delta] returns [exp(-q*T)*cdf(d1)] and [-exp(-q*T)*cdf(-d1)].
    The exponent always carries the stored yield [q]: the pair has this form
    under ["yes"] and under ["no"] alike, whatever [carry_benefits]
    returns. *)
Theorem delta_formula (self : Black_Scholes) :
  0 < K self -> 0 < So self -> 0 < T self -> 0 < mu self ->
  div self = "yes"%string \/ div self = "no"%string ->
  exists d1 d2,
    d1_d2 self = (Ok (d1, d2), self) /\
    delta self =
    (Ok (exp (- q self * T self) * norm.cdf d1,
         - exp (- q self * T self) * norm.cdf (- d1)), self).
Proof.
  intros HK HSo HT Hmu Hdiv.
  destruct (carry_benefits_recognized self Hdiv) as (carry & ec & Hc & _).
  pose proof (d1_d2_valid self carry ec Hc HK HSo HT Hmu) as Hd.
  cbv zeta in Hd.
  do 2 eexists. split; [exact Hd |]. apply (delta_Ok self _ _ Hd).
Qed.

(** On the object of the [__main__] block. *)
Lemma delta_formula_witness :
  exists d1 d2,
    d1_d2 bsm = (Ok (d1, d2), bsm) /\
    delta bsm =
    (Ok (exp (- q bsm * T bsm) * norm.cdf d1,
         - exp (- q bsm * T bsm) * norm.cdf (- d1)), bsm).
Proof.
  apply (delta_formula bsm); try (simpl; lra).
  left. reflexivity.
Defined.

(** Without dividends [carry_benefits] hands back the factor 1, and [delta]
    still discounts with the stored yield. *)
Lemma delta_without_dividend (self : Black_Scholes) :
  0 < K self -> 0 < So self -> 0 < T self -> 0 < mu self ->
  div self = "no"%string ->
  exists d1 d2,
    carry_benefits self = (Ok (0, 1), self) /\
    d1_d2 self = (Ok (d1, d2), self) /\
    delta self =
    (Ok (exp (- q self * T self) * norm.cdf d1,
         - exp (- q self * T self) * norm.cdf (- d1)), self).
Proof.
  intros HK HSo HT Hmu Hdiv.
  pose proof (carry_benefits_no self Hdiv) as Hc.
  pose proof (d1_d2_valid self 0 1 Hc HK HSo HT Hmu) as Hd.
  cbv zeta in Hd.
  do 2 eexists. split; [exact Hc |]. split; [exact Hd |].
  apply (delta_Ok self _ _ Hd).
Qed.

(** ** [gamma] *)

Lemma gamma_Ok (self : Black_Scholes) (d1 d2 : R) :
  d1_d2 self = (Ok (d1, d2), self) ->
  0 <= T self -> So self * mu self * sqrt (T self) <> 0 ->
  gamma self =
  (Ok (exp (- q self * T self) / (So self * mu self * sqrt (T self))
       * norm.pdf d1), self).
Proof.
  intros Hd HT Hden. unfold gamma. rewrite (bind_Ok _ _ _ _ _ Hd).
  run_method. unfold math.sqrt, truediv.
  destruct (Rle_dec 0 (T self)) as [_ | N]; [| contradiction]. simpl.
  destruct (Req_dec_T (So self * mu self * sqrt (T self)) 0) as [E | _];
    [contradiction | reflexivity].
Qed.

Lemma gamma_Raise (self : Black_Scholes) (e : exception) :
  d1_d2 self = (Raise e, self) -> gamma self = (Raise e, self).
Proof.
  intros Hd. unfold gamma. rewrite (bind_Raise _ _ _ _ _ Hd). reflexivity.
Qed.

(** In exact real arithmetic: for positive strike, spot, term and
    volatility and a recognised flag, [gamma] returns
    [exp(-q*T) / (So*mu*sqrt T) * pdf(d1)], and this number is strictly
    positive.  The strictness is a fact about the real density only: in
    double precision the density underflows to 0.0 far in the tails (for
    instance at [d1] near -48), and [gamma] then returns 0.0. *)
Theorem gamma_positive (self : Black_Scholes) :
  0 < K self -> 0 < So self -> 0 < T self -> 0 < mu self ->
  div self = "yes"%string \/ div self = "no"%string ->
  exists d1 d2 g,
    d1_d2 self = (Ok (d1, d2), self) /\
    g = exp (- q self * T self) / (So self * mu self * sqrt (T self))
        * norm.pdf d1 /\
    gamma self = (Ok g, self) /\
    0 < exp (- q self * T self) /\
    0 < norm.pdf d1 /\
    0 < So self * mu self * sqrt (T self) /\
    0 < g.
Proof.
  intros HK HSo HT Hmu Hdiv.
  destruct (carry_benefits_recognized self Hdiv) as (carry & ec & Hc & _).
  pose proof (d1_d2_valid self carry ec Hc HK HSo HT Hmu) as Hd.
  cbv zeta in Hd.
  assert (Hden : 0 < So self * mu self * sqrt (T self)).
  { apply Rmult_lt_0_compat; [apply Rmult_lt_0_compat; assumption |].
    apply sqrt_lt_R0; assumption. }
  do 3 eexists. split; [exact Hd |]. split; [reflexivity |].
  split; [apply (gamma_Ok self _ _ Hd); lra |].
  split; [apply exp_pos |]. split; [apply pdf_pos |].
  split; [exact Hden |].
  apply Rmult_lt_0_compat; [| apply pdf_pos].
  apply Rdiv_lt_0_compat; [apply exp_pos | exact Hden].
Qed.

(** On the object of the [__main__] block. *)
Lemma gamma_positive_witness :
  exists d1 d2 g,
    d1_d2 bsm = (Ok (d1, d2), bsm) /\
    g = exp (- q bsm * T bsm) / (So bsm * mu bsm * sqrt (T bsm))
        * norm.pdf d1 /\
    gamma bsm = (Ok g, bsm) /\
    0 < exp (- q bsm * T bsm) /\
    0 < norm.pdf d1 /\
    0 < So bsm * mu bsm * sqrt (T bsm) /\
    0 < g.
Proof.
  apply (gamma_positive bsm); try (simpl; lra).
  left. reflexivity.
Defined.

(** ** Where [d1_d2] raises *)

Lemma d1_d2_cases (self : Black_Scholes) (carry exp_carry : R) :
  carry_benefits self = (Ok (carry, exp_carry), self) ->
  (K self = 0 /\ d1_d2 self = (Raise ZeroDivisionError, self)) \/
  (K self <> 0 /\ So self / K self <= 0 /\
   d1_d2 self = (Raise ValueError, self)) \/
  (K self <> 0 /\ 0 < So self / K self /\ T self < 0 /\
   d1_d2 self = (Raise ValueError, self)) \/
  (K self <> 0 /\ 0 < So self / K self /\ 0 <= T self /\
   mu self * sqrt (T self) = 0 /\
   d1_d2 self = (Raise ZeroDivisionError, self)) \/
  (K self <> 0 /\ 0 < So self / K self /\ 0 <= T self /\
   mu self * sqrt (T self) <> 0 /\
   exists d1 d2, d1_d2 self = (Ok (d1, d2), self)).
Proof.
  intros Hc.
  destruct (Req_dec_T (K self) 0) as [HK | HK].
  { left. split; [exact HK |]. unfold d1_d2.
    rewrite (bind_Ok _ _ _ _ _ Hc). run_method. unfold truediv.
    destruct (Req_dec_T (K self) 0); [reflexivity | contradiction]. }
  right.
  destruct (Rlt_dec 0 (So self / K self)) as [HSoK | HSoK].
  2:{ left. split; [exact HK |]. split; [lra |]. unfold d1_d2.
      rewrite (bind_Ok _ _ _ _ _ Hc). run_method. unfold truediv, math.log.
      destruct (Req_dec_T (K self) 0); [contradiction |]. simpl.
      destruct (Rlt_dec 0 (So self / K self)); [contradiction | reflexivity]. }
  right.
  destruct (Rle_dec 0 (T self)) as [HT | HT].
  2:{ left. split; [exact HK |]. split; [exact HSoK |]. split; [lra |].
      unfold d1_d2.
      rewrite (bind_Ok _ _ _ _ _ Hc). run_method.
      unfold truediv, math.log, math.sqrt.
      destruct (Req_dec_T (K self) 0); [contradiction |]. simpl.
      destruct (Rlt_dec 0 (So self / K self)); [| contradiction]. simpl.
      destruct (Rle_dec 0 (T self)); [contradiction | reflexivity]. }
  right.
  destruct (Req_dec_T (mu self * sqrt (T self)) 0) as [Hden | Hden].
  { left. split; [exact HK |]. split; [exact HSoK |]. split; [exact HT |].
    split; [exact Hden |]. unfold d1_d2.
    rewrite (bind_Ok _ _ _ _ _ Hc). run_method.
    unfold truediv, math.log, math.sqrt.
    destruct (Req_dec_T (K self) 0); [contradiction |]. simpl.
    destruct (Rlt_dec 0 (So self / K self)); [| contradiction]. simpl.
    destruct (Rle_dec 0 (T self)); [| contradiction]. simpl.
    destruct (Req_dec_T (mu self * sqrt (T self)) 0);
      [reflexivity | contradiction]. }
  right. split; [exact HK |]. split; [exact HSoK |]. split; [exact HT |].
  split; [exact Hden |]. do 2 eexists.
  apply (d1_d2_Ok self carry exp_carry Hc HK HSoK HT Hden).
Qed.

Lemma quotient_sign (x y : R) : y <> 0 -> (0 < x / y <-> 0 < x * y).
Proof.
  intros Hy.
  assert (Hq : x / y * y = x) by (field; exact Hy).
  assert (Hy2 : 0 < y * y) by nra.
  split; intros H.
  - replace (x * y) with (x / y * (y * y)) by (rewrite <- Hq at 2; ring).
    apply Rmult_lt_0_compat; assumption.
  - destruct (Rlt_dec 0 (x / y)) as [Hp | Hn]; [exact Hp | exfalso].
    assert (Hle : x / y * (y * y) <= 0) by nra.
    replace (x / y * (y * y)) with (x * y) in Hle
      by (rewrite <- Hq at 1; ring).
    lra.
Qed.

Lemma denominator_zero (m t : R) :
  0 <= t -> (m * sqrt t = 0 <-> m = 0 \/ t = 0).
Proof.
  intros Ht. split.
  - intros H. apply Rmult_integral in H. destruct H as [H | H];
      [left; exact H | right; apply sqrt_eq_0; assumption].
  - intros [H | H]; subst; [ring | rewrite sqrt_0; ring].
Qed.

(** C7, as the code has it.  With a recognised flag, [d1_d2] raises a
    domain error ([ZeroDivisionError] or [ValueError]) whenever [K = 0],
    [So = 0], [So] and [K] have opposite signs, [T <= 0] or [mu = 0]; in
    that case [call_put_options], [delta] and [gamma] raise the same
    exception and hand back no value. *)
Theorem d1_d2_domain_error (self : Black_Scholes) :
  div self = "yes"%string \/ div self = "no"%string ->
  K self = 0 \/ So self = 0 \/ So self * K self < 0 \/ T self <= 0 \/
  mu self = 0 ->
  exists e, classify e = DomainError /\
            d1_d2 self = (Raise e, self) /\
            call_put_options self = (Raise e, self) /\
            delta self = (Raise e, self) /\
            gamma self = (Raise e, self).
Proof.
  intros Hdiv Hcond.
  destruct (carry_benefits_recognized self Hdiv) as (carry & ec & Hc & _).
  assert (Hall : forall e, classify e = DomainError ->
                           d1_d2 self = (Raise e, self) ->
            exists e, classify e = DomainError /\
             d1_d2 self = (Raise e, self) /\
             call_put_options self = (Raise e, self) /\
             delta self = (Raise e, self) /\
             gamma self = (Raise e, self)).
  { intros e He Hd. exists e. split; [exact He |]. split; [exact Hd |].
    split; [apply (call_put_options_Raise self carry ec e Hc Hd) |].
    split; [apply delta_Raise | apply gamma_Raise]; exact Hd. }
  destruct (d1_d2_cases self carry ec Hc)
    as [(HK & Hd) | [(HK & HSoK & Hd) | [(HK & HSoK & HT & Hd)
       | [(HK & HSoK & HT & Hden & Hd) | (HK & HSoK & HT & Hden & Hd)]]]].
  - apply (Hall ZeroDivisionError); [reflexivity | exact Hd].
  - apply (Hall ValueError); [reflexivity | exact Hd].
  - apply (Hall ValueError); [reflexivity | exact Hd].
  - apply (Hall ZeroDivisionError); [reflexivity | exact Hd].
  - exfalso.
    pose proof (quotient_sign (So self) (K self) HK) as Hs.
    apply Hs in HSoK.
    destruct Hcond as [H | [H | [H | [H | H]]]].
    + contradiction.
    + rewrite H in HSoK. lra.
    + lra.
    + apply Hden, denominator_zero; [exact HT | right; lra].
    + apply Hden, denominator_zero; [exact HT | left; exact H].
Qed.

(** The [__main__] parameters with a zero strike. *)
Lemma d1_d2_domain_error_witness :
  let self := __init__ 0 3 4100 0.01 0.012 0.15 "yes" in
  exists e, classify e = DomainError /\
            d1_d2 self = (Raise e, self) /\
            call_put_options self = (Raise e, self) /\
            delta self = (Raise e, self) /\
            gamma self = (Raise e, self).
Proof.
  intros self.
  apply (d1_d2_domain_error self (or_introl eq_refl)).
  left. reflexivity.
Defined.

(** Where [d1_d2] returns although a parameter is not positive: a negative
    volatility, and a strike and a spot that are both negative. *)
Lemma d1_d2_returns_outside_domain :
  let self1 := __init__ 1 12 1 0 0 (-1) "no" in
  let self2 := __init__ (-1) 12 (-1) 0 0 1 "no" in
  (mu self1 <= 0 /\ d1_d2 self1 = (Ok (- (1 / 2), 1 / 2), self1)) /\
  (K self2 <= 0 /\ So self2 <= 0 /\
   d1_d2 self2 = (Ok (1 / 2, - (1 / 2)), self2)).
Proof.
  intros self1 self2.
  assert (Hsq : sqrt (12 / 12) = 1)
    by (replace (12 / 12) with 1 by lra; apply sqrt_1).
  split.
  - split; [simpl; lra |].
    assert (Hc : carry_benefits self1 = (Ok (0, 1), self1))
      by (apply carry_benefits_no; reflexivity).
    assert (Hln : ln (So self1 / K self1) = 0).
    { replace (So self1 / K self1) with 1 by (simpl; lra). apply ln_1. }
    rewrite (d1_d2_Ok self1 0 1 Hc); simpl T; try rewrite Hsq;
      try (simpl; lra).
    rewrite Hln. simpl mu. simpl r. do 2 f_equal. f_equal; field.
  - split; [simpl; lra |]. split; [simpl; lra |].
    assert (Hc : carry_benefits self2 = (Ok (0, 1), self2))
      by (apply carry_benefits_no; reflexivity).
    assert (Hq : So self2 / K self2 = 1) by (simpl; field).
    rewrite (d1_d2_Ok self2 0 1 Hc); simpl T; try rewrite Hsq;
      try rewrite Hq; try (simpl; lra).
    rewrite ln_1. simpl mu. simpl r. do 2 f_equal. f_equal; field.
Qed.

(** ** No method changes the object *)

Definition preserves_self {A : Type} (m : method A) : Prop :=
  forall self, snd (m self) = self.

Lemma preserves_ret {A : Type} (a : A) : preserves_self (ret a).
Proof. intro self. reflexivity. Qed.

Lemma preserves_raise {A : Type} (e : exception) :
  preserves_self (@raise A e).
Proof. intro self. reflexivity. Qed.

Lemma preserves_attr {A : Type} (f : Black_Scholes -> A) :
  preserves_self (attr f).
Proof. intro self. reflexivity. Qed.

Lemma preserves_lift {A : Type} (x : result A) : preserves_self (lift x).
Proof. intro self. reflexivity. Qed.

Lemma preserves_load_fast {A : Type} (v : option A) :
  preserves_self (load_fast v).
Proof. destruct v; intro self; reflexivity. Qed.

Lemma preserves_bind {A B : Type} (m : method A) (k : A -> method B) :
  preserves_self m -> (forall a, preserves_self (k a)) ->
  preserves_self (bind m k).
Proof.
  intros Hm Hk self. unfold bind. specialize (Hm self).
  destruct (m self) as [[a | e] self']; simpl in Hm; subst self'.
  - apply Hk.
  - reflexivity.
Qed.

Lemma preserves_if {A : Type} (b : bool) (m1 m2 : method A) :
  preserves_self m1 -> preserves_self m2 ->
  preserves_self (if b then m1 else m2).
Proof. destruct b; auto. Qed.

Create HintDb frame.
#[local] Hint Resolve preserves_ret preserves_raise preserves_attr
  preserves_lift preserves_load_fast preserves_if : frame.

Ltac frame :=
  repeat first
    [ apply preserves_bind; [| intro]
    | apply preserves_if
    | solve [auto with frame] ].

Lemma preserves_carry_benefits : preserves_self carry_benefits.
Proof. unfold carry_benefits. frame. Qed.

Lemma preserves_d1_d2 : preserves_self d1_d2.
Proof. unfold d1_d2. pose proof preserves_carry_benefits. frame. Qed.

Lemma preserves_call_put_options : preserves_self call_put_options.
Proof.
  unfold call_put_options.
  pose proof preserves_carry_benefits. pose proof preserves_d1_d2. frame.
Qed.

Lemma preserves_equity_forward : preserves_self equity_forward.
Proof. unfold equity_forward. frame. Qed.

Lemma preserves_delta : preserves_self delta.
Proof. unfold delta. pose proof preserves_d1_d2. frame. Qed.

Lemma preserves_gamma : preserves_self gamma.
Proof. unfold gamma. pose proof preserves_d1_d2. frame. Qed.

Lemma preserves_invoke (o : operation) : preserves_self (invoke o).
Proof.
  destruct o; unfold invoke, as_pair, as_scalar;
    pose proof preserves_carry_benefits; pose proof preserves_d1_d2;
    pose proof preserves_call_put_options;
    pose proof preserves_equity_forward;
    pose proof preserves_delta; pose proof preserves_gamma; frame.
Qed.

Lemma after_self (history : list operation) (self : Black_Scholes) :
  after history self = self.
Proof.
  revert self. induction history as [| o rest IH]; intro self; simpl.
  - reflexivity.
  - rewrite (preserves_invoke o self). apply IH.
Qed.

(** C9. No method changes the object: after [carry_benefits], [d1_d2],
    [call_put_options], [equity_forward], [delta] or [gamma] the seven
    attributes are what they were, whether the call returned or raised.
    Nothing is carried from one call to the next: after any sequence of
    calls, each method gives the outcome it gives on the untouched
    object. *)
Theorem methods_do_not_mutate (self : Black_Scholes) (o : operation)
        (history : list operation) :
  snd (carry_benefits self) = self /\
  snd (d1_d2 self) = self /\
  snd (call_put_options self) = self /\
  snd (equity_forward self) = self /\
  snd (delta self) = self /\
  snd (gamma self) = self /\
  after history self = self /\
  invoke o (after history self) = invoke o self.
Proof.
  split; [apply preserves_carry_benefits |].
  split; [apply preserves_d1_d2 |].
  split; [apply preserves_call_put_options |].
  split; [apply preserves_equity_forward |].
  split; [apply preserves_delta |].
  split; [apply preserves_gamma |].
  split; [apply after_self |].
  rewrite after_self. reflexivity.
Qed.

(** ** Sensitivity of the prices to the volatility *)

Section Vega.

(** The call price as a function of the total volatility [v = mu * sqrt T],
    for a discounted spot [A], a discounted strike [B] and the
    log-moneyness [m] of the two. *)
Variables A B m : R.
Hypothesis A_pos : 0 < A.
Hypothesis moneyness : A * exp (- m) = B.

Definition d_plus (v : R) : R := m / v + v / 2.
Definition d_minus (v : R) : R := m / v - v / 2.

Definition call_of (v : R) : R :=
  A * norm.cdf (d_plus v) - B * norm.cdf (d_minus v).

Definition put_of (v : R) : R :=
  B * norm.cdf (- d_minus v) - A * norm.cdf (- d_plus v).

Definition vega_of (v : R) : R :=
  A * (norm.pdf (d_plus v) * (- m / v ^ 2 + 1 / 2))
  - B * (norm.pdf (d_minus v) * (- m / v ^ 2 - 1 / 2)).

Lemma d_plus_derivable (v : R) :
  v <> 0 -> derivable_pt_lim d_plus v (- m / v ^ 2 + 1 / 2).
Proof.
  intros Hv.
  replace (- m / v ^ 2 + 1 / 2)
    with ((0 * id v - 1 * fct_cte m v) / Rsqr (id v)
          + (1 * fct_cte 2 v - 0 * id v) / Rsqr (fct_cte 2 v))
    by (unfold id, fct_cte, Rsqr; field; exact Hv).
  apply (derivable_pt_lim_plus (fct_cte m / id)%F (id / fct_cte 2)%F).
  - apply derivable_pt_lim_div;
      [apply derivable_pt_lim_const | apply derivable_pt_lim_id | exact Hv].
  - apply derivable_pt_lim_div;
      [apply derivable_pt_lim_id | apply derivable_pt_lim_const |].
    unfold fct_cte. lra.
Qed.

Lemma d_minus_derivable (v : R) :
  v <> 0 -> derivable_pt_lim d_minus v (- m / v ^ 2 - 1 / 2).
Proof.
  intros Hv.
  replace (- m / v ^ 2 - 1 / 2)
    with ((0 * id v - 1 * fct_cte m v) / Rsqr (id v)
          - (1 * fct_cte 2 v - 0 * id v) / Rsqr (fct_cte 2 v))
    by (unfold id, fct_cte, Rsqr; field; exact Hv).
  apply (derivable_pt_lim_minus (fct_cte m / id)%F (id / fct_cte 2)%F).
  - apply derivable_pt_lim_div;
      [apply derivable_pt_lim_const | apply derivable_pt_lim_id | exact Hv].
  - apply derivable_pt_lim_div;
      [apply derivable_pt_lim_id | apply derivable_pt_lim_const |].
    unfold fct_cte. lra.
Qed.

Lemma call_of_derivable (v : R) :
  v <> 0 -> derivable_pt_lim call_of v (vega_of v).
Proof.
  intros Hv. unfold vega_of.
  apply (derivable_pt_lim_minus
           (mult_real_fct A (comp norm.cdf d_plus))
           (mult_real_fct B (comp norm.cdf d_minus))).
  - apply derivable_pt_lim_scal.
    apply derivable_pt_lim_comp;
      [apply d_plus_derivable; exact Hv | apply cdf_derivable].
  - apply derivable_pt_lim_scal.
    apply derivable_pt_lim_comp;
      [apply d_minus_derivable; exact Hv | apply cdf_derivable].
Qed.

(** The two density terms of the price weigh the same. *)
Lemma density_balance (v : R) :
  v <> 0 -> A * norm.pdf (d_plus v) = B * norm.pdf (d_minus v).
Proof.
  intros Hv. unfold norm.pdf.
  replace (- d_plus v ^ 2 / 2) with (- m + - d_minus v ^ 2 / 2)
    by (unfold d_plus, d_minus; field; exact Hv).
  rewrite exp_plus, <- moneyness. unfold Rdiv. ring.
Qed.

Lemma vega_of_eq (v : R) : v <> 0 -> vega_of v = A * norm.pdf (d_plus v).
Proof.
  intros Hv. unfold vega_of.
  replace (B * (norm.pdf (d_minus v) * (- m / v ^ 2 - 1 / 2)))
    with (B * norm.pdf (d_minus v) * (- m / v ^ 2 - 1 / 2)) by ring.
  rewrite <- (density_balance v Hv). field. exact Hv.
Qed.

Lemma vega_of_pos (v : R) : v <> 0 -> 0 < vega_of v.
Proof.
  intros Hv. rewrite (vega_of_eq v Hv).
  apply Rmult_lt_0_compat; [exact A_pos | apply pdf_pos].
Qed.

Lemma call_of_increasing (v1 v2 : R) :
  0 < v1 -> v1 < v2 -> call_of v1 < call_of v2.
Proof.
  intros H1 H12.
  destruct (MVT_cor2 call_of vega_of v1 v2 H12) as (c & Hc & Hin).
  - intros c Hc. apply call_of_derivable. lra.
  - assert (0 < vega_of c) by (apply vega_of_pos; lra).
    assert (0 < vega_of c * (v2 - v1)) by (apply Rmult_lt_0_compat; lra).
    lra.
Qed.

Lemma put_of_call_of (v : R) : put_of v = call_of v - A + B.
Proof.
  unfold put_of, call_of.
  pose proof (cdf_symmetry (d_plus v)). pose proof (cdf_symmetry (d_minus v)).
  replace (norm.cdf (- d_plus v)) with (1 - norm.cdf (d_plus v)) by lra.
  replace (norm.cdf (- d_minus v)) with (1 - norm.cdf (d_minus v)) by lra.
  ring.
Qed.

Lemma put_of_increasing (v1 v2 : R) :
  0 < v1 -> v1 < v2 -> put_of v1 < put_of v2.
Proof.
  intros H1 H12. rewrite !put_of_call_of.
  pose proof (call_of_increasing v1 v2 H1 H12). lra.
Qed.

End Vega.

(** The quantities of [Section Vega] read off an object. *)
Definition log_moneyness (self : Black_Scholes) (carry : R) : R :=
  ln (So self / K self) + (r self - carry) * T self.

Definition total_volatility (self : Black_Scholes) : R :=
  mu self * sqrt (T self).

Lemma d1_as_d_plus (self : Black_Scholes) (carry : R) :
  0 < T self -> 0 < mu self ->
  (ln (So self / K self) + (r self - carry + mu self ^ 2 / 2) * T self)
  / (mu self * sqrt (T self))
  = d_plus (log_moneyness self carry) (total_volatility self).
Proof.
  intros HT Hmu. unfold d_plus, log_moneyness, total_volatility.
  assert (Hs : 0 < sqrt (T self)) by (apply sqrt_lt_R0; exact HT).
  assert (Hss : T self = sqrt (T self) * sqrt (T self))
    by (symmetry; apply sqrt_sqrt; lra).
  generalize dependent (sqrt (T self)). intros s Hs Hss.
  generalize (ln (So self / K self)). intro l.
  rewrite Hss. field. lra.
Qed.

Lemma d2_as_d_minus (m v : R) : d_plus m v - v = d_minus m v.
Proof. unfold d_plus, d_minus. lra. Qed.

Lemma moneyness_balance (self : Black_Scholes) (carry : R) :
  0 < K self -> 0 < So self ->
  So self * exp (- carry * T self) * exp (- log_moneyness self carry)
  = K self * exp (- r self * T self).
Proof.
  intros HK HSo. unfold log_moneyness.
  assert (HSoK : 0 < So self / K self) by (apply Rdiv_lt_0_compat; assumption).
  replace (- (ln (So self / K self) + (r self - carry) * T self))
    with (- ln (So self / K self) + (carry * T self + - r self * T self))
    by ring.
  rewrite !exp_plus, exp_Ropp, (exp_ln _ HSoK).
  replace (- carry * T self) with (- (carry * T self)) by ring.
  rewrite (exp_Ropp (carry * T self)).
  pose proof (exp_pos (carry * T self)). field. lra.
Qed.

Lemma call_put_options_valid (self : Black_Scholes) (carry exp_carry : R) :
  carry_benefits self = (Ok (carry, exp_carry), self) ->
  exp_carry = exp (- carry * T self) ->
  0 < K self -> 0 < So self -> 0 < T self -> 0 < mu self ->
  let A := So self * exp_carry in
  let B := K self * exp (- r self * T self) in
  let m := log_moneyness self carry in
  let v := total_volatility self in
  call_put_options self = (Ok (call_of A B m v, put_of A B m v), self).
Proof.
  intros Hc Hec HK HSo HT Hmu A B m v.
  pose proof (d1_d2_valid self carry exp_carry Hc HK HSo HT Hmu) as Hd.
  cbv zeta in Hd. rewrite (d1_as_d_plus self carry HT Hmu) in Hd.
  fold (total_volatility self) in Hd. rewrite d2_as_d_minus in Hd.
  rewrite (call_put_options_Ok self carry exp_carry _ _ Hc Hd).
  reflexivity.
Qed.

(** In exact real arithmetic: two objects that agree on a positive strike,
    spot and term, on the rates and on a recognised flag, with volatilities
    [0 < mu1 < mu2]: [call_put_options] returns on both, and the call and
    the put of the second are strictly above those of the first.  The
    strictness is a fact about the real distribution function only: in
    double precision it is exactly 0.0 or 1.0 far in the tails, and a deep
    out-of-the-money contract then has the same prices at both
    volatilities. *)
Theorem prices_increase_with_volatility
        (K T So r q mu1 mu2 : R) (div : string) :
  0 < K -> 0 < So -> 0 < T -> 0 < mu1 -> mu1 < mu2 ->
  div = "yes"%string \/ div = "no"%string ->
  let self1 := mkBlack_Scholes K T So r q mu1 div in
  let self2 := mkBlack_Scholes K T So r q mu2 div in
  exists call1 put1 call2 put2,
    call_put_options self1 = (Ok (call1, put1), self1) /\
    call_put_options self2 = (Ok (call2, put2), self2) /\
    call1 < call2 /\ put1 < put2.
Proof.
  intros HK HSo HT Hmu1 Hmu Hdiv self1 self2.
  destruct (carry_benefits_recognized self1 Hdiv) as (carry & ec & Hc1 & Hec).
  assert (Hc2 : carry_benefits self2 = (Ok (carry, ec), self2)).
  { destruct Hdiv as [Hdiv | Hdiv].
    - rewrite (carry_benefits_yes self1 Hdiv) in Hc1.
      rewrite (carry_benefits_yes self2 Hdiv).
      injection Hc1 as <- <-. reflexivity.
    - rewrite (carry_benefits_no self1 Hdiv) in Hc1.
      rewrite (carry_benefits_no self2 Hdiv).
      injection Hc1 as <- <-. reflexivity. }
  assert (Hmu2 : 0 < mu2) by lra.
  pose proof (call_put_options_valid self1 carry ec Hc1 Hec HK HSo HT Hmu1)
    as H1.
  pose proof (call_put_options_valid self2 carry ec Hc2 Hec HK HSo HT Hmu2)
    as H2.
  cbv zeta in H1, H2.
  do 4 eexists. split; [exact H1 |]. split; [exact H2 |].
  assert (Hs : 0 < sqrt T) by (apply sqrt_lt_R0; exact HT).
  assert (Hv1 : 0 < total_volatility self1)
    by (apply Rmult_lt_0_compat; assumption).
  assert (Hv12 : total_volatility self1 < total_volatility self2)
    by (apply Rmult_lt_compat_r; assumption).
  assert (HA : 0 < So * ec).
  { apply Rmult_lt_0_compat; [exact HSo |]. rewrite Hec. apply exp_pos. }
  assert (HB : So * ec * exp (- log_moneyness self1 carry)
               = K * exp (- r * T)).
  { rewrite Hec. apply (moneyness_balance self1 carry HK HSo). }
  split.
  - apply (call_of_increasing _ _ _ HA HB _ _ Hv1 Hv12).
  - apply (put_of_increasing _ _ _ HA HB _ _ Hv1 Hv12).
Qed.

(** The [__main__] parameters at 15% and at 20% volatility. *)
Lemma prices_increase_with_volatility_witness :
  let self1 := mkBlack_Scholes 4200 (3 / 12) 4100 0.01 0.012 0.15 "yes" in
  let self2 := mkBlack_Scholes 4200 (3 / 12) 4100 0.01 0.012 0.2 "yes" in
  exists call1 put1 call2 put2,
    call_put_options self1 = (Ok (call1, put1), self1) /\
    call_put_options self2 = (Ok (call2, put2), self2) /\
    call1 < call2 /\ put1 < put2.
Proof.
  apply (prices_increase_with_volatility
           4200 (3 / 12) 4100 0.01 0.012 0.15 0.2 "yes"); try lra.
  left. reflexivity.
Defined.

(** * Further properties of the methods *)

(** ** Variations of an object and readings of the outcomes *)

(** The same contract with no yield and the dividend branch taken. *)
Definition zero_yield (self : Black_Scholes) : Black_Scholes :=
  {| K := K self; T := T self; So := So self; r := r self; q := 0;
     mu := mu self; div := "yes" |}.

(** Spot and strike quoted in another unit. *)
Definition rescale (c : R) (self : Black_Scholes) : Black_Scholes :=
  {| K := c * K self; T := T self; So := c * So self; r := r self;
     q := q self; mu := mu self; div := div self |}.

Definition result_map {A B : Type} (f : A -> B) (x : result A) : result B :=
  match x with
  | Ok a => Ok (f a)
  | Raise e => Raise e
  end.

(** The same object at another spot, and at another volatility. *)
Definition with_So (self : Black_Scholes) (s : R) : Black_Scholes :=
  {| K := K self; T := T self; So := s; r := r self; q := q self;
     mu := mu self; div := div self |}.

Definition with_mu (self : Black_Scholes) (m : R) : Black_Scholes :=
  {| K := K self; T := T self; So := So self; r := r self; q := q self;
     mu := m; div := div self |}.

(** The numbers a caller reads off the returned lists (0 where the call
    raised). *)
Definition value_or {A : Type} (default : A) (x : result A) : A :=
  match x with
  | Ok a => a
  | Raise _ => default
  end.

Definition call_price (self : Black_Scholes) : R :=
  fst (value_or (0, 0) (fst (call_put_options self))).

Definition put_price (self : Black_Scholes) : R :=
  snd (value_or (0, 0) (fst (call_put_options self))).

Definition delta_call (self : Black_Scholes) : R :=
  fst (value_or (0, 0) (fst (delta self))).

Definition delta_put (self : Black_Scholes) : R :=
  snd (value_or (0, 0) (fst (delta self))).

(** Strike and spot exchanged, and the rate exchanged with the yield. *)
Definition exchanged (self : Black_Scholes) : Black_Scholes :=
  {| K := So self; T := T self; So := K self; r := q self; q := r self;
     mu := mu self; div := div self |}.

(** ** Which objects the methods accept *)

Lemma recognized_dec (self : Black_Scholes) :
  {div self = "yes"%string \/ div self = "no"%string}
  + {div self <> "yes"%string /\ div self <> "no"%string}.
Proof.
  destruct (string_dec (div self) "yes") as [Hy | Hy];
    [left; left; exact Hy |].
  destruct (string_dec (div self) "no") as [Hn | Hn];
    [left; right; exact Hn | right; split; assumption].
Qed.

Lemma d1_d2_unrecognized (self : Black_Scholes) :
  div self <> "yes"%string -> div self <> "no"%string ->
  d1_d2 self = (Raise UnboundLocalError, self).
Proof.
  intros Hy Hn. unfold d1_d2.
  rewrite (bind_Raise _ _ _ _ _ (carry_benefits_other self Hy Hn)).
  reflexivity.
Qed.

Lemma call_put_options_unrecognized (self : Black_Scholes) :
  div self <> "yes"%string -> div self <> "no"%string ->
  call_put_options self = (Raise UnboundLocalError, self).
Proof.
  intros Hy Hn. unfold call_put_options.
  rewrite (bind_Raise _ _ _ _ _ (carry_benefits_other self Hy Hn)).
  reflexivity.
Qed.

Lemma equity_forward_unrecognized (self : Black_Scholes) :
  div self <> "yes"%string -> div self <> "no"%string ->
  equity_forward self = (Raise UnboundLocalError, self).
Proof.
  intros Hy Hn. unfold equity_forward. run_method.
  apply String.eqb_neq in Hy, Hn. rewrite Hy. simpl. rewrite Hn.
  reflexivity.
Qed.

(** X1. With a flag other than ["yes"] and ["no"], [d1_d2],
    [call_put_options], [delta] and [gamma] all raise
    [UnboundLocalError], whatever the numbers stored in the object: the
    failed read in [carry_benefits] comes before any division, logarithm or
    square root. *)
Theorem unrecognized_flag_raises_first (self : Black_Scholes) :
  div self <> "yes"%string -> div self <> "no"%string ->
  d1_d2 self = (Raise UnboundLocalError, self) /\
  call_put_options self = (Raise UnboundLocalError, self) /\
  delta self = (Raise UnboundLocalError, self) /\
  gamma self = (Raise UnboundLocalError, self).
Proof.
  intros Hy Hn.
  pose proof (d1_d2_unrecognized self Hy Hn) as Hd.
  split; [exact Hd |].
  split; [apply call_put_options_unrecognized; assumption |].
  split; [apply delta_Raise | apply gamma_Raise]; exact Hd.
Qed.

(** A zero strike and a zero term behind an unknown flag. *)
Lemma unrecognized_flag_raises_first_witness :
  let self := __init__ 0 0 4100 0.01 0.012 0.15 "maybe" in
  d1_d2 self = (Raise UnboundLocalError, self) /\
  call_put_options self = (Raise UnboundLocalError, self) /\
  delta self = (Raise UnboundLocalError, self) /\
  gamma self = (Raise UnboundLocalError, self).
Proof.
  intros self. apply (unrecognized_flag_raises_first self); discriminate.
Defined.

(** Under a recognised flag the only exception [equity_forward] can raise
    comes from one of its divisions. *)
Lemma equity_forward_recognized (self : Black_Scholes) :
  div self = "yes"%string \/ div self = "no"%string ->
  (exists NPV, equity_forward self = (Ok NPV, self))
  \/ equity_forward self = (Raise ZeroDivisionError, self).
Proof.
  intros [Hdiv | Hdiv]; unfold equity_forward; run_method;
    rewrite Hdiv; simpl; rewrite ?Hdiv; simpl; unfold truediv;
    repeat match goal with
           | |- context [Req_dec_T ?x ?y] => destruct (Req_dec_T x y); simpl
           end;
    solve [right; reflexivity | left; eexists; reflexivity].
Qed.

(** X2. [equity_forward] raises [UnboundLocalError] exactly when the flag
    is neither ["yes"] nor ["no"]: an unknown flag always ends in the read
    of a never-assigned local, whatever the numbers, and under a
    recognised flag that exception cannot occur. *)
Theorem equity_forward_unbound_local_iff (self : Black_Scholes) :
  equity_forward self = (Raise UnboundLocalError, self)
  <-> (div self <> "yes"%string /\ div self <> "no"%string).
Proof.
  destruct (recognized_dec self) as [Hrec | [Hy Hn]].
  - split.
    + intros He.
      destruct (equity_forward_recognized self Hrec) as [[NPV H] | H];
        rewrite He in H; discriminate.
    + intros [Hy Hn]. destruct Hrec; contradiction.
  - split; [intros _; split; assumption |].
    intros _. apply equity_forward_unrecognized; assumption.
Qed.

Lemma d1_d2_needs_carry (self : Black_Scholes) (d : R * R) :
  d1_d2 self = (Ok d, self) ->
  div self = "yes"%string \/ div self = "no"%string.
Proof.
  intros Hd. destruct (recognized_dec self) as [Hrec | [Hy Hn]];
    [exact Hrec |].
  rewrite (d1_d2_unrecognized self Hy Hn) in Hd. discriminate.
Qed.

(** In exact arithmetic, when [d1_d2] has returned, the square root and
    the division that [gamma] does itself do not raise. *)
Lemma gamma_after_d1_d2 (self : Black_Scholes) (d1 d2 : R) :
  d1_d2 self = (Ok (d1, d2), self) ->
  gamma self =
  (Ok (exp (- q self * T self) / (So self * mu self * sqrt (T self))
       * norm.pdf d1), self).
Proof.
  intros Hd.
  destruct (carry_benefits_recognized self (d1_d2_needs_carry self _ Hd))
    as (carry & ec & Hc & _).
  destruct (d1_d2_cases self carry ec Hc)
    as [(_ & H) | [(_ & _ & H) | [(_ & _ & _ & H)
       | [(_ & _ & _ & _ & H) | (HK & HSoK & HT & Hden & _)]]]];
    try (rewrite H in Hd; discriminate).
  apply (gamma_Ok self d1 d2 Hd HT).
  assert (HSo : So self <> 0).
  { intro E. rewrite E in HSoK. unfold Rdiv in HSoK.
    rewrite Rmult_0_l in HSoK. lra. }
  rewrite Rmult_assoc. apply Rmult_integral_contrapositive_currified;
    assumption.
Qed.

Lemma d1_d2_domain (self : Black_Scholes) (d : R * R) :
  d1_d2 self = (Ok d, self) ->
  (div self = "yes"%string \/ div self = "no"%string) /\
  K self <> 0 /\ 0 < So self * K self /\ 0 < T self /\ mu self <> 0.
Proof.
  intros Hd.
  pose proof (d1_d2_needs_carry self d Hd) as Hrec.
  split; [exact Hrec |].
  destruct (carry_benefits_recognized self Hrec) as (carry & ec & Hc & _).
  destruct (d1_d2_cases self carry ec Hc)
    as [(_ & H) | [(_ & _ & H) | [(_ & _ & _ & H)
       | [(_ & _ & _ & _ & H) | (HK & HSoK & HT & Hden & _)]]]];
    try (rewrite H in Hd; discriminate).
  split; [exact HK |].
  split; [apply (quotient_sign _ _ HK); exact HSoK |].
  pose proof (denominator_zero (mu self) (T self) HT) as Hz.
  split.
  - destruct (Req_dec_T (T self) 0) as [E | E]; [| lra].
    exfalso. apply Hden, Hz. right. exact E.
  - intro E. apply Hden, Hz. left. exact E.
Qed.

(** On an accepted object [carry_benefits] and [d1_d2] both return. *)
Lemma d1_d2_accepts (self : Black_Scholes) :
  div self = "yes"%string \/ div self = "no"%string ->
  K self <> 0 -> 0 < So self * K self -> 0 < T self -> mu self <> 0 ->
  exists carry exp_carry d1 d2,
    carry_benefits self = (Ok (carry, exp_carry), self) /\
    exp_carry = exp (- carry * T self) /\
    d1_d2 self = (Ok (d1, d2), self).
Proof.
  intros Hrec HK HSoK HT Hmu.
  destruct (carry_benefits_recognized self Hrec) as (carry & ec & Hc & Hec).
  exists carry, ec. do 2 eexists. split; [exact Hc |]. split; [exact Hec |].
  apply (d1_d2_Ok self carry ec Hc HK).
  - apply (quotient_sign _ _ HK); exact HSoK.
  - lra.
  - intro E. apply denominator_zero in E; [| lra].
    destruct E; [contradiction | lra].
Qed.

(** ** Relations between the outputs *)

(** X4. On every object the option methods accept, the two numbers
    returned by [delta] differ by the yield discount:
    [delta_call - delta_put = exp(-q*T)]. *)
Theorem delta_call_minus_delta_put (self : Black_Scholes) :
  div self = "yes"%string \/ div self = "no"%string ->
  K self <> 0 -> 0 < So self * K self -> 0 < T self -> mu self <> 0 ->
  exists delta_call delta_put,
    delta self = (Ok (delta_call, delta_put), self) /\
    delta_call - delta_put = exp (- q self * T self).
Proof.
  intros Hrec HK HSoK HT Hmu.
  destruct (d1_d2_accepts self Hrec HK HSoK HT Hmu)
    as (carry & ec & d1 & d2 & _ & _ & Hd).
  do 2 eexists. split; [apply (delta_Ok self d1 d2 Hd) |].
  pose proof (cdf_symmetry d1).
  replace (norm.cdf (- d1)) with (1 - norm.cdf d1) by lra. ring.
Qed.

(** On the object of the [__main__] block. *)
Lemma delta_call_minus_delta_put_witness :
  exists delta_call delta_put,
    delta bsm = (Ok (delta_call, delta_put), bsm) /\
    delta_call - delta_put = exp (- q bsm * T bsm).
Proof.
  apply (delta_call_minus_delta_put bsm); try (simpl; lra).
  left. reflexivity.
Defined.

(** X5. On every object the option methods accept, a long call and a
    short put are worth the forward: the difference of the two prices
    returned by [call_put_options] is the number returned by
    [equity_forward], under ["yes"] and under ["no"]. *)
Theorem call_minus_put_is_forward (self : Black_Scholes) :
  div self = "yes"%string \/ div self = "no"%string ->
  K self <> 0 -> 0 < So self * K self -> 0 < T self -> mu self <> 0 ->
  exists call put,
    call_put_options self = (Ok (call, put), self) /\
    equity_forward self = (Ok (call - put), self).
Proof.
  intros Hrec HK HSoK HT Hmu.
  destruct (d1_d2_accepts self Hrec HK HSoK HT Hmu)
    as (carry & ec & d1 & d2 & Hc & Hec & Hd).
  do 2 eexists.
  split; [apply (call_put_options_Ok self carry ec d1 d2 Hc Hd) |].
  pose proof (cdf_symmetry d1). pose proof (cdf_symmetry d2).
  replace (norm.cdf (- d1)) with (1 - norm.cdf d1) by lra.
  replace (norm.cdf (- d2)) with (1 - norm.cdf d2) by lra.
  assert (Hr : K self / exp (r self * T self)
               = K self * exp (- r self * T self)).
  { replace (- r self * T self) with (- (r self * T self)) by ring.
    rewrite exp_Ropp. reflexivity. }
  destruct Hrec as [Hdiv | Hdiv].
  - rewrite (carry_benefits_yes self Hdiv) in Hc.
    injection Hc as <- <-.
    rewrite (equity_forward_yes self Hdiv). do 2 f_equal.
    rewrite Hr.
    replace (- q self * T self) with (- (q self * T self)) by ring.
    rewrite exp_Ropp. unfold Rdiv. ring.
  - rewrite (carry_benefits_no self Hdiv) in Hc.
    injection Hc as <- <-.
    rewrite (equity_forward_no self Hdiv). do 2 f_equal.
    rewrite Hr. ring.
Qed.

(** On the object of the [__main__] block, whose report prints the two
    numbers one under the other. *)
Lemma call_minus_put_is_forward_witness :
  exists call put,
    call_put_options bsm = (Ok (call, put), bsm) /\
    equity_forward bsm = (Ok (call - put), bsm).
Proof.
  apply (call_minus_put_is_forward bsm); try (simpl; lra).
  left. reflexivity.
Defined.

(** ** Objects that differ in some attributes *)

Ltac case_split :=
  repeat match goal with
         | |- context [match ?x with _ => _ end] => destruct x; simpl
         end.

(** [d1_d2] reads the flag and the yield through [carry_benefits] only. *)
Lemma d1_d2_congruence (self self' : Black_Scholes) :
  fst (carry_benefits self) = fst (carry_benefits self') ->
  K self = K self' -> So self = So self' -> r self = r self' ->
  mu self = mu self' -> T self = T self' ->
  fst (d1_d2 self) = fst (d1_d2 self').
Proof.
  intros Hc HK HSo Hr Hmu HT.
  pose proof (preserves_carry_benefits self) as Hs.
  pose proof (preserves_carry_benefits self') as Hs'.
  destruct (carry_benefits self) as [[c | e] s] eqn:E;
    destruct (carry_benefits self') as [[c' | e'] s'] eqn:E';
    simpl in Hc, Hs, Hs'; subst s s'; try discriminate.
  - injection Hc as <-. unfold d1_d2.
    rewrite (bind_Ok _ _ _ _ _ E), (bind_Ok _ _ _ _ _ E'). run_method.
    rewrite <- HK, <- HSo, <- Hr, <- Hmu, <- HT.
    case_split; reflexivity.
  - injection Hc as <-. unfold d1_d2.
    rewrite (bind_Raise _ _ _ _ _ E), (bind_Raise _ _ _ _ _ E').
    reflexivity.
Qed.

Lemma method_outcome {A : Type} (m : method A) (self : Black_Scholes)
      (x : result A) :
  preserves_self m -> fst (m self) = x -> m self = (x, self).
Proof.
  intros Hm Hx. specialize (Hm self).
  destruct (m self) as [y s]. simpl in *. subst. reflexivity.
Qed.

Lemma carry_benefits_congruence (self self' : Black_Scholes) :
  div self = div self' -> q self = q self' -> T self = T self' ->
  fst (carry_benefits self) = fst (carry_benefits self').
Proof.
  intros Hdiv Hq HT.
  destruct (recognized_dec self) as [[H | H] | [Hy Hn]].
  - rewrite (carry_benefits_yes self H), (carry_benefits_yes self');
      [| rewrite <- Hdiv; exact H].
    simpl. rewrite Hq, HT. reflexivity.
  - rewrite (carry_benefits_no self H), (carry_benefits_no self');
      [| rewrite <- Hdiv; exact H].
    reflexivity.
  - rewrite (carry_benefits_other self Hy Hn), (carry_benefits_other self');
      [| rewrite <- Hdiv; exact Hy | rewrite <- Hdiv; exact Hn].
    reflexivity.
Qed.

Lemma call_put_options_congruence (self self' : Black_Scholes) :
  fst (carry_benefits self) = fst (carry_benefits self') ->
  fst (d1_d2 self) = fst (d1_d2 self') ->
  K self = K self' -> So self = So self' -> r self = r self' ->
  T self = T self' ->
  fst (call_put_options self) = fst (call_put_options self').
Proof.
  intros Hc Hd HK HSo Hr HT.
  pose proof (method_outcome _ self _ preserves_carry_benefits eq_refl) as E.
  pose proof (method_outcome _ self' _ preserves_carry_benefits eq_refl) as E'.
  pose proof (method_outcome _ self _ preserves_d1_d2 eq_refl) as D.
  pose proof (method_outcome _ self' _ preserves_d1_d2 eq_refl) as D'.
  rewrite <- Hc in E'. rewrite <- Hd in D'.
  unfold call_put_options.
  destruct (fst (carry_benefits self)) as [c | e].
  - rewrite (bind_Ok _ _ _ _ _ E), (bind_Ok _ _ _ _ _ E').
    destruct (fst (d1_d2 self)) as [d | e].
    + rewrite (bind_Ok _ _ _ _ _ D), (bind_Ok _ _ _ _ _ D'). run_method.
      rewrite HK, HSo, Hr, HT. reflexivity.
    + rewrite (bind_Raise _ _ _ _ _ D), (bind_Raise _ _ _ _ _ D').
      reflexivity.
  - rewrite (bind_Raise _ _ _ _ _ E), (bind_Raise _ _ _ _ _ E').
    reflexivity.
Qed.

Lemma delta_congruence (self self' : Black_Scholes) :
  fst (d1_d2 self) = fst (d1_d2 self') ->
  q self = q self' -> T self = T self' ->
  fst (delta self) = fst (delta self').
Proof.
  intros Hd Hq HT.
  pose proof (method_outcome _ self _ preserves_d1_d2 eq_refl) as D.
  pose proof (method_outcome _ self' _ preserves_d1_d2 eq_refl) as D'.
  rewrite <- Hd in D'. unfold delta.
  destruct (fst (d1_d2 self)) as [d | e].
  - rewrite (bind_Ok _ _ _ _ _ D), (bind_Ok _ _ _ _ _ D'). run_method.
    rewrite Hq, HT. reflexivity.
  - rewrite (bind_Raise _ _ _ _ _ D), (bind_Raise _ _ _ _ _ D').
    reflexivity.
Qed.

Lemma carry_benefits_zero_yield (self : Black_Scholes) :
  div self = "no"%string ->
  fst (carry_benefits self) = fst (carry_benefits (zero_yield self)).
Proof.
  intros Hdiv.
  rewrite (carry_benefits_no self Hdiv),
    (carry_benefits_yes (zero_yield self) eq_refl).
  simpl. replace (- 0 * T self) with 0 by ring. rewrite exp_0. reflexivity.
Qed.

Lemma d1_d2_zero_yield (self : Black_Scholes) :
  div self = "no"%string ->
  fst (d1_d2 self) = fst (d1_d2 (zero_yield self)).
Proof.
  intros Hdiv. apply d1_d2_congruence; auto.
  apply carry_benefits_zero_yield; exact Hdiv.
Qed.

(** X6. Under ["no"] the stored yield plays no part in the prices:
    [d1_d2], [call_put_options] and [equity_forward] give, on any object
    with flag ["no"], the outcome they give on the object with the same
    strike, term, spot, rate and volatility, yield 0 and flag ["yes"]. *)
Theorem no_dividend_is_zero_yield (self : Black_Scholes) :
  div self = "no"%string ->
  fst (d1_d2 self) = fst (d1_d2 (zero_yield self)) /\
  fst (call_put_options self) = fst (call_put_options (zero_yield self)) /\
  fst (equity_forward self) = fst (equity_forward (zero_yield self)).
Proof.
  intros Hdiv.
  pose proof (carry_benefits_zero_yield self Hdiv) as Hc.
  pose proof (d1_d2_zero_yield self Hdiv) as Hd.
  split; [exact Hd |].
  split; [apply call_put_options_congruence; auto |].
  rewrite (equity_forward_no self Hdiv),
    (equity_forward_yes (zero_yield self) eq_refl).
  simpl. rewrite Rmult_0_l, exp_0. do 2 f_equal. field.
Qed.

(** The [__main__] parameters with the flag set to ["no"]. *)
Lemma no_dividend_is_zero_yield_witness :
  let self := __init__ 4200 3 4100 0.01 0.012 0.15 "no" in
  fst (d1_d2 self) = fst (d1_d2 (zero_yield self)) /\
  fst (call_put_options self) = fst (call_put_options (zero_yield self)) /\
  fst (equity_forward self) = fst (equity_forward (zero_yield self)).
Proof.
  intros self. apply (no_dividend_is_zero_yield self). reflexivity.
Defined.

(** X7. [delta] and [gamma] do use the stored yield under ["no"]: on an
    accepted object with flag ["no"] each of their outputs is [exp(-q*T)]
    times the output on the zero-yield object, whose prices are the
    same. *)
Theorem no_dividend_greeks_keep_yield (self : Black_Scholes) :
  div self = "no"%string ->
  K self <> 0 -> 0 < So self * K self -> 0 < T self -> mu self <> 0 ->
  exists delta_call delta_put g delta_call0 delta_put0 g0,
    delta self = (Ok (delta_call, delta_put), self) /\
    gamma self = (Ok g, self) /\
    delta (zero_yield self)
    = (Ok (delta_call0, delta_put0), zero_yield self) /\
    gamma (zero_yield self) = (Ok g0, zero_yield self) /\
    delta_call = exp (- q self * T self) * delta_call0 /\
    delta_put = exp (- q self * T self) * delta_put0 /\
    g = exp (- q self * T self) * g0.
Proof.
  intros Hdiv HK HSoK HT Hmu.
  destruct (d1_d2_accepts self (or_intror Hdiv) HK HSoK HT Hmu)
    as (carry & ec & d1 & d2 & _ & _ & Hd).
  assert (Hd0 : d1_d2 (zero_yield self) = (Ok (d1, d2), zero_yield self)).
  { apply (method_outcome _ _ _ preserves_d1_d2).
    rewrite <- (d1_d2_zero_yield self Hdiv).
    rewrite Hd. reflexivity. }
  do 6 eexists.
  split; [apply (delta_Ok self d1 d2 Hd) |].
  split; [apply (gamma_after_d1_d2 self d1 d2 Hd) |].
  split; [apply (delta_Ok _ d1 d2 Hd0) |].
  split; [apply (gamma_after_d1_d2 _ d1 d2 Hd0) |].
  simpl. replace (- 0 * T self) with 0 by ring. rewrite exp_0.
  repeat split; field.
  assert (0 < sqrt (T self)) by (apply sqrt_lt_R0; exact HT).
  repeat split; try lra. intro E. rewrite E in HSoK. lra.
Qed.

(** The [__main__] parameters with the flag set to ["no"]. *)
Lemma no_dividend_greeks_keep_yield_witness :
  let self := __init__ 4200 3 4100 0.01 0.012 0.15 "no" in
  exists delta_call delta_put g delta_call0 delta_put0 g0,
    delta self = (Ok (delta_call, delta_put), self) /\
    gamma self = (Ok g, self) /\
    delta (zero_yield self)
    = (Ok (delta_call0, delta_put0), zero_yield self) /\
    gamma (zero_yield self) = (Ok g0, zero_yield self) /\
    delta_call = exp (- q self * T self) * delta_call0 /\
    delta_put = exp (- q self * T self) * delta_put0 /\
    g = exp (- q self * T self) * g0.
Proof.
  intros self.
  apply (no_dividend_greeks_keep_yield self); try (simpl; lra).
  reflexivity.
Defined.

(** ** Spot and strike in another unit *)

Lemma truediv_rescale (c x y : R) :
  c <> 0 -> truediv (c * x) (c * y) = truediv x y.
Proof.
  intros Hc. unfold truediv.
  destruct (Req_dec_T (c * y) 0) as [E | E];
    destruct (Req_dec_T y 0) as [E' | E'].
  - reflexivity.
  - apply Rmult_integral in E. destruct E; contradiction.
  - subst y. rewrite Rmult_0_r in E. contradiction.
  - f_equal. field. split; assumption.
Qed.

Lemma d1_d2_rescale (c : R) (self : Black_Scholes) :
  c <> 0 -> fst (d1_d2 (rescale c self)) = fst (d1_d2 self).
Proof.
  intros Hc.
  assert (Hcb : fst (carry_benefits (rescale c self))
                = fst (carry_benefits self))
    by (apply carry_benefits_congruence; reflexivity).
  pose proof (method_outcome _ self _ preserves_carry_benefits eq_refl) as E.
  pose proof (method_outcome _ (rescale c self) _
                preserves_carry_benefits eq_refl) as E'.
  rewrite Hcb in E'. unfold d1_d2.
  destruct (fst (carry_benefits self)) as [carry | e].
  - rewrite (bind_Ok _ _ _ _ _ E), (bind_Ok _ _ _ _ _ E'). run_method.
    rewrite (truediv_rescale c _ _ Hc). case_split; reflexivity.
  - rewrite (bind_Raise _ _ _ _ _ E), (bind_Raise _ _ _ _ _ E').
    reflexivity.
Qed.

(** X8. Quoting spot and strike in another unit (both multiplied by the
    same [c <> 0]) leaves the outcome of [d1_d2] and of [delta] as it is,
    multiplies both prices of [call_put_options] and the value of
    [equity_forward] by [c], and divides [gamma] by [c]; a call that raises
    raises the same exception after the change. *)
Theorem rescale_spot_and_strike (c : R) (self : Black_Scholes) :
  c <> 0 ->
  fst (d1_d2 (rescale c self)) = fst (d1_d2 self) /\
  fst (delta (rescale c self)) = fst (delta self) /\
  fst (call_put_options (rescale c self))
  = result_map (fun p => (c * fst p, c * snd p))
               (fst (call_put_options self)) /\
  fst (equity_forward (rescale c self))
  = result_map (fun NPV => c * NPV) (fst (equity_forward self)) /\
  fst (gamma (rescale c self))
  = result_map (fun g => g / c) (fst (gamma self)).
Proof.
  intros Hc.
  pose proof (d1_d2_rescale c self Hc) as Hd.
  assert (Hcb : fst (carry_benefits (rescale c self))
                = fst (carry_benefits self))
    by (apply carry_benefits_congruence; reflexivity).
  pose proof (method_outcome _ self _ preserves_carry_benefits eq_refl) as E.
  pose proof (method_outcome _ (rescale c self) _
                preserves_carry_benefits eq_refl) as E'.
  pose proof (method_outcome _ self _ preserves_d1_d2 eq_refl) as D.
  pose proof (method_outcome _ (rescale c self) _
                preserves_d1_d2 eq_refl) as D'.
  rewrite Hcb in E'. rewrite Hd in D'.
  split; [exact Hd |].
  split; [apply delta_congruence; [exact Hd | reflexivity | reflexivity] |].
  split; [| split].
  - unfold call_put_options.
    destruct (fst (carry_benefits self)) as [carry | e].
    + rewrite (bind_Ok _ _ _ _ _ E), (bind_Ok _ _ _ _ _ E').
      destruct (fst (d1_d2 self)) as [d | e].
      * rewrite (bind_Ok _ _ _ _ _ D), (bind_Ok _ _ _ _ _ D').
        run_method. f_equal. apply f_equal2; ring.
      * rewrite (bind_Raise _ _ _ _ _ D), (bind_Raise _ _ _ _ _ D').
        reflexivity.
    + rewrite (bind_Raise _ _ _ _ _ E), (bind_Raise _ _ _ _ _ E').
      reflexivity.
  - destruct (recognized_dec self) as [[H | H] | [Hy Hn]].
    + rewrite (equity_forward_yes self H),
        (equity_forward_yes (rescale c self) H).
      simpl. f_equal. unfold Rdiv. ring.
    + rewrite (equity_forward_no self H),
        (equity_forward_no (rescale c self) H).
      simpl. f_equal. unfold Rdiv. ring.
    + rewrite (equity_forward_unrecognized self Hy Hn),
        (equity_forward_unrecognized (rescale c self) Hy Hn).
      reflexivity.
  - destruct (fst (d1_d2 self)) as [[d1 d2] | e].
    + rewrite (gamma_after_d1_d2 self d1 d2 D),
        (gamma_after_d1_d2 (rescale c self) d1 d2 D').
      simpl. f_equal.
      destruct (d1_d2_domain self _ D) as (_ & HK & HSoK & HT & Hmu).
      field.
      assert (0 < sqrt (T self)) by (apply sqrt_lt_R0; exact HT).
      repeat split; try lra; try assumption.
      intro E0. rewrite E0 in HSoK. lra.
    + rewrite (gamma_Raise self e D), (gamma_Raise (rescale c self) e D').
      reflexivity.
Qed.

(** The object of the [__main__] block quoted in hundredths. *)
Lemma rescale_spot_and_strike_witness :
  fst (d1_d2 (rescale 100 bsm)) = fst (d1_d2 bsm) /\
  fst (delta (rescale 100 bsm)) = fst (delta bsm) /\
  fst (call_put_options (rescale 100 bsm))
  = result_map (fun p => (100 * fst p, 100 * snd p))
               (fst (call_put_options bsm)) /\
  fst (equity_forward (rescale 100 bsm))
  = result_map (fun NPV => 100 * NPV) (fst (equity_forward bsm)) /\
  fst (gamma (rescale 100 bsm))
  = result_map (fun g => g / 100) (fst (gamma bsm)).
Proof.
  apply (rescale_spot_and_strike 100 bsm). lra.
Defined.

(** ** Sensitivity of the outputs to the spot *)

Lemma derivable_pt_lim_same (f g : R -> R) (x l : R) :
  (forall y, f y = g y) ->
  derivable_pt_lim g x l -> derivable_pt_lim f x l.
Proof.
  intros Hfg. apply (derivable_pt_lim_local f g (x - 1) (x + 1)); [lra |].
  intros y _. apply Hfg.
Qed.

Section Spot.

(** The prices as functions of the spot [s], for a strike [K0], a carry
    discount [ec], a discounted strike [B] and a total volatility [v]; [c]
    is the drift part [(r - carry) * T] of the log-moneyness. *)
Variables K0 ec c B v : R.
Hypothesis K0_pos : 0 < K0.
Hypothesis v_nonzero : v <> 0.

Definition moneyness_at (s : R) : R := ln (s / K0) + c.

Hypothesis balance :
  forall s, 0 < s -> s * ec * exp (- moneyness_at s) = B.

Definition d_plus_at (s : R) : R := d_plus (moneyness_at s) v.
Definition d_minus_at (s : R) : R := d_minus (moneyness_at s) v.
Definition call_at (s : R) : R := call_of (s * ec) B (moneyness_at s) v.
Definition put_at (s : R) : R := put_of (s * ec) B (moneyness_at s) v.

Lemma moneyness_at_derivable (s : R) :
  0 < s -> derivable_pt_lim moneyness_at s (/ s).
Proof.
  intros Hs.
  replace (/ s)
    with (/ (s / K0) * ((1 * fct_cte K0 s - 0 * id s) / Rsqr (fct_cte K0 s))
          + 0)
    by (unfold fct_cte, id, Rsqr; field; lra).
  apply (derivable_pt_lim_plus (comp ln (id / fct_cte K0)%F) (fct_cte c)).
  - apply (derivable_pt_lim_comp (id / fct_cte K0)%F ln).
    + apply derivable_pt_lim_div;
        [apply derivable_pt_lim_id | apply derivable_pt_lim_const |].
      unfold fct_cte. lra.
    + apply derivable_pt_lim_ln. unfold div_fct, id, fct_cte.
      apply Rdiv_lt_0_compat; assumption.
  - apply derivable_pt_lim_const.
Qed.

Lemma d_plus_at_derivable (s : R) :
  0 < s -> derivable_pt_lim d_plus_at s (/ (s * v)).
Proof.
  intros Hs.
  apply (derivable_pt_lim_same _
           (mult_real_fct (/ v) moneyness_at + fct_cte (v / 2))%F).
  - intro y. unfold d_plus_at, d_plus, plus_fct, mult_real_fct, fct_cte.
    field. exact v_nonzero.
  - replace (/ (s * v)) with (/ v * / s + 0) by (field; lra).
    apply derivable_pt_lim_plus.
    + apply derivable_pt_lim_scal, moneyness_at_derivable; exact Hs.
    + apply derivable_pt_lim_const.
Qed.

Lemma d_minus_at_derivable (s : R) :
  0 < s -> derivable_pt_lim d_minus_at s (/ (s * v)).
Proof.
  intros Hs.
  apply (derivable_pt_lim_same _ (d_plus_at - fct_cte v)%F).
  - intro y. unfold d_minus_at, d_plus_at, d_minus, d_plus, minus_fct, fct_cte.
    lra.
  - replace (/ (s * v)) with (/ (s * v) - 0) by lra.
    apply derivable_pt_lim_minus;
      [apply d_plus_at_derivable; exact Hs | apply derivable_pt_lim_const].
Qed.

Lemma cdf_d_plus_at_derivable (s : R) :
  0 < s ->
  derivable_pt_lim (fun x => norm.cdf (d_plus_at x)) s
                   (norm.pdf (d_plus_at s) * / (s * v)).
Proof.
  intros Hs. apply (derivable_pt_lim_comp d_plus_at norm.cdf).
  - apply d_plus_at_derivable; exact Hs.
  - apply cdf_derivable.
Qed.

Lemma call_at_derivable (s : R) :
  0 < s -> derivable_pt_lim call_at s (ec * norm.cdf (d_plus_at s)).
Proof.
  intros Hs.
  pose proof (density_balance (s * ec) B (moneyness_at s) (balance s Hs)
                v v_nonzero) as Hb.
  fold (d_plus_at s) in Hb. fold (d_minus_at s) in Hb.
  replace (ec * norm.cdf (d_plus_at s))
    with ((ec * norm.cdf (d_plus_at s)
           + s * ec * (norm.pdf (d_plus_at s) * / (s * v)))
          - B * (norm.pdf (d_minus_at s) * / (s * v)))
    by (rewrite <- Rmult_assoc, <- (Rmult_assoc B), <- Hb; ring).
  apply (derivable_pt_lim_minus
           (mult_fct (fun x => x * ec) (fun x => norm.cdf (d_plus_at x)))
           (mult_real_fct B (fun x => norm.cdf (d_minus_at x)))).
  - apply (derivable_pt_lim_mult
             (fun x => x * ec) (fun x => norm.cdf (d_plus_at x)) s ec
             (norm.pdf (d_plus_at s) * / (s * v))).
    + apply (derivable_pt_lim_same _ (mult_real_fct ec id)).
      * intro y. unfold mult_real_fct, id. ring.
      * replace ec with (ec * 1) at 2 by ring.
        apply derivable_pt_lim_scal, derivable_pt_lim_id.
    + apply cdf_d_plus_at_derivable; exact Hs.
  - apply derivable_pt_lim_scal.
    apply (derivable_pt_lim_comp d_minus_at norm.cdf).
    + apply d_minus_at_derivable; exact Hs.
    + apply cdf_derivable.
Qed.

Lemma put_at_derivable (s : R) :
  0 < s -> derivable_pt_lim put_at s (- ec * norm.cdf (- d_plus_at s)).
Proof.
  intros Hs.
  apply (derivable_pt_lim_same _
           (call_at - mult_real_fct ec id + fct_cte B)%F).
  - intro y. unfold put_at, call_at, plus_fct, minus_fct, mult_real_fct,
      fct_cte, id. rewrite put_of_call_of. ring.
  - pose proof (cdf_symmetry (d_plus_at s)).
    replace (- ec * norm.cdf (- d_plus_at s))
      with (ec * norm.cdf (d_plus_at s) - ec * 1 + 0)
      by (replace (norm.cdf (- d_plus_at s))
            with (1 - norm.cdf (d_plus_at s)) by lra; ring).
    apply derivable_pt_lim_plus; [| apply derivable_pt_lim_const].
    apply derivable_pt_lim_minus;
      [apply call_at_derivable; exact Hs |].
    apply derivable_pt_lim_scal, derivable_pt_lim_id.
Qed.

End Spot.

Lemma carry_benefits_transfer (self self' : Black_Scholes)
      (carry exp_carry : R) :
  div self = div self' -> q self = q self' -> T self = T self' ->
  carry_benefits self = (Ok (carry, exp_carry), self) ->
  carry_benefits self' = (Ok (carry, exp_carry), self').
Proof.
  intros Hdiv Hq HT Hc. apply (method_outcome _ _ _ preserves_carry_benefits).
  rewrite <- (carry_benefits_congruence self self' Hdiv Hq HT), Hc.
  reflexivity.
Qed.

Section AtSpot.

Variable self : Black_Scholes.
Variables carry exp_carry : R.
Hypothesis carry_ok : carry_benefits self = (Ok (carry, exp_carry), self).
Hypothesis exp_carry_eq : exp_carry = exp (- carry * T self).
Hypothesis K_pos : 0 < K self.
Hypothesis T_pos : 0 < T self.
Hypothesis mu_pos : 0 < mu self.

Let drift : R := (r self - carry) * T self.
Let strike_pv : R := K self * exp (- r self * T self).
Let vol : R := mu self * sqrt (T self).

Lemma vol_pos : 0 < vol.
Proof.
  apply Rmult_lt_0_compat; [exact mu_pos | apply sqrt_lt_R0; exact T_pos].
Qed.

Lemma spot_balance (s : R) :
  0 < s -> s * exp_carry * exp (- moneyness_at (K self) drift s) = strike_pv.
Proof.
  intros Hs. rewrite exp_carry_eq.
  apply (moneyness_balance (with_So self s) carry K_pos Hs).
Qed.

Lemma d1_d2_at_spot (s : R) :
  0 < s ->
  d1_d2 (with_So self s)
  = (Ok (d_plus_at (K self) drift vol s, d_minus_at (K self) drift vol s),
     with_So self s).
Proof.
  intros Hs.
  pose proof (carry_benefits_transfer self (with_So self s) carry exp_carry
                eq_refl eq_refl eq_refl carry_ok) as Hc.
  pose proof (d1_d2_valid (with_So self s) carry exp_carry Hc
                K_pos Hs T_pos mu_pos) as Hd.
  cbv zeta in Hd.
  rewrite (d1_as_d_plus (with_So self s) carry T_pos mu_pos) in Hd.
  fold (total_volatility (with_So self s)) in Hd.
  rewrite d2_as_d_minus in Hd. exact Hd.
Qed.

Lemma call_price_at_spot (s : R) :
  0 < s ->
  call_price (with_So self s)
  = call_at (K self) exp_carry drift strike_pv vol s /\
  put_price (with_So self s)
  = put_at (K self) exp_carry drift strike_pv vol s.
Proof.
  intros Hs.
  pose proof (carry_benefits_transfer self (with_So self s) carry exp_carry
                eq_refl eq_refl eq_refl carry_ok) as Hc.
  unfold call_price, put_price.
  rewrite (call_put_options_Ok (with_So self s) carry exp_carry _ _ Hc
             (d1_d2_at_spot s Hs)).
  split; reflexivity.
Qed.

Lemma delta_at_spot (s : R) :
  0 < s ->
  delta_call (with_So self s)
  = exp (- q self * T self) * norm.cdf (d_plus_at (K self) drift vol s) /\
  delta_put (with_So self s)
  = - exp (- q self * T self)
    * norm.cdf (- d_plus_at (K self) drift vol s).
Proof.
  intros Hs. unfold delta_call, delta_put.
  rewrite (delta_Ok (with_So self s) _ _ (d1_d2_at_spot s Hs)).
  split; reflexivity.
Qed.

End AtSpot.

Lemma with_So_same (self : Black_Scholes) : with_So self (So self) = self.
Proof. destruct self. reflexivity. Qed.

Lemma d1_d2_at_own_spot (self : Black_Scholes) (carry exp_carry : R) :
  carry_benefits self = (Ok (carry, exp_carry), self) ->
  0 < K self -> 0 < So self -> 0 < T self -> 0 < mu self ->
  d1_d2 self
  = (Ok (d_plus_at (K self) ((r self - carry) * T self)
                   (mu self * sqrt (T self)) (So self),
         d_minus_at (K self) ((r self - carry) * T self)
                    (mu self * sqrt (T self)) (So self)), self).
Proof.
  intros Hc HK HSo HT Hmu.
  pose proof (d1_d2_at_spot self carry exp_carry Hc HK HT Hmu (So self) HSo)
    as Hd.
  rewrite with_So_same in Hd. exact Hd.
Qed.

(** X9. For positive strike, spot, term and volatility and a recognised
    flag, the call price returned by [call_put_options], seen as a function
    of the spot with the other attributes kept, has derivative
    [exp_carry * cdf(d1)] at the stored spot, and the put price has
    derivative [- exp_carry * cdf(-d1)]; [exp_carry] is the factor returned
    by [carry_benefits] and [d1] the first number returned by [d1_d2]. *)
Theorem prices_spot_derivative (self : Black_Scholes) :
  0 < K self -> 0 < So self -> 0 < T self -> 0 < mu self ->
  div self = "yes"%string \/ div self = "no"%string ->
  exists carry exp_carry d1 d2,
    carry_benefits self = (Ok (carry, exp_carry), self) /\
    d1_d2 self = (Ok (d1, d2), self) /\
    derivable_pt_lim (fun s => call_price (with_So self s)) (So self)
                     (exp_carry * norm.cdf d1) /\
    derivable_pt_lim (fun s => put_price (with_So self s)) (So self)
                     (- exp_carry * norm.cdf (- d1)).
Proof.
  intros HK HSo HT Hmu Hrec.
  destruct (carry_benefits_recognized self Hrec) as (carry & ec & Hc & Hec).
  pose proof (vol_pos self HT Hmu) as Hv.
  exists carry, ec. do 2 eexists. split; [exact Hc |].
  split; [apply (d1_d2_at_own_spot self carry ec Hc HK HSo HT Hmu) |].
  split.
  - apply (derivable_pt_lim_local _
             (call_at (K self) ec ((r self - carry) * T self)
                      (K self * exp (- r self * T self))
                      (mu self * sqrt (T self)))
             0 (So self + 1)); [lra | |].
    + intros s Hs.
      apply (call_price_at_spot self carry ec Hc HK HT Hmu s). lra.
    + apply call_at_derivable; [exact HK | lra | | exact HSo].
      apply (spot_balance self carry ec Hec HK).
  - apply (derivable_pt_lim_local _
             (put_at (K self) ec ((r self - carry) * T self)
                     (K self * exp (- r self * T self))
                     (mu self * sqrt (T self)))
             0 (So self + 1)); [lra | |].
    + intros s Hs.
      apply (call_price_at_spot self carry ec Hc HK HT Hmu s). lra.
    + apply put_at_derivable; [exact HK | lra | | exact HSo].
      apply (spot_balance self carry ec Hec HK).
Qed.

(** On the object of the [__main__] block. *)
Lemma prices_spot_derivative_witness :
  exists carry exp_carry d1 d2,
    carry_benefits bsm = (Ok (carry, exp_carry), bsm) /\
    d1_d2 bsm = (Ok (d1, d2), bsm) /\
    derivable_pt_lim (fun s => call_price (with_So bsm s)) (So bsm)
                     (exp_carry * norm.cdf d1) /\
    derivable_pt_lim (fun s => put_price (with_So bsm s)) (So bsm)
                     (- exp_carry * norm.cdf (- d1)).
Proof.
  apply (prices_spot_derivative bsm); try (simpl; lra).
  left. reflexivity.
Defined.

(** X10. Under ["yes"], for positive strike, spot, term and volatility,
    the two numbers returned by [delta] are the derivatives of the call and
    of the put price of [call_put_options] with respect to the spot. *)
Theorem delta_is_price_derivative (self : Black_Scholes) :
  0 < K self -> 0 < So self -> 0 < T self -> 0 < mu self ->
  div self = "yes"%string ->
  exists dc dp,
    delta self = (Ok (dc, dp), self) /\
    derivable_pt_lim (fun s => call_price (with_So self s)) (So self) dc /\
    derivable_pt_lim (fun s => put_price (with_So self s)) (So self) dp.
Proof.
  intros HK HSo HT Hmu Hdiv.
  pose proof (carry_benefits_yes self Hdiv) as Hc.
  pose proof (vol_pos self HT Hmu) as Hv.
  pose proof (d1_d2_at_own_spot self _ _ Hc HK HSo HT Hmu) as Hd.
  do 2 eexists. split; [apply (delta_Ok self _ _ Hd) |].
  split.
  - apply (derivable_pt_lim_local _
             (call_at (K self) (exp (- q self * T self))
                      ((r self - q self) * T self)
                      (K self * exp (- r self * T self))
                      (mu self * sqrt (T self)))
             0 (So self + 1)); [lra | |].
    + intros s Hs.
      apply (call_price_at_spot self _ _ Hc HK HT Hmu s). lra.
    + apply call_at_derivable; [exact HK | lra | | exact HSo].
      apply (spot_balance self _ _ eq_refl HK).
  - apply (derivable_pt_lim_local _
             (put_at (K self) (exp (- q self * T self))
                     ((r self - q self) * T self)
                     (K self * exp (- r self * T self))
                     (mu self * sqrt (T self)))
             0 (So self + 1)); [lra | |].
    + intros s Hs.
      apply (call_price_at_spot self _ _ Hc HK HT Hmu s). lra.
    + apply put_at_derivable; [exact HK | lra | | exact HSo].
      apply (spot_balance self _ _ eq_refl HK).
Qed.

(** On the object of the [__main__] block. *)
Lemma delta_is_price_derivative_witness :
  exists dc dp,
    delta bsm = (Ok (dc, dp), bsm) /\
    derivable_pt_lim (fun s => call_price (with_So bsm s)) (So bsm) dc /\
    derivable_pt_lim (fun s => put_price (with_So bsm s)) (So bsm) dp.
Proof.
  apply (delta_is_price_derivative bsm); try (simpl; lra). reflexivity.
Defined.

(** X11. For positive strike, spot, term and volatility and a recognised
    flag, the number returned by [gamma] is the derivative with respect to
    the spot of the call delta and of the put delta returned by [delta]. *)
Theorem gamma_is_delta_derivative (self : Black_Scholes) :
  0 < K self -> 0 < So self -> 0 < T self -> 0 < mu self ->
  div self = "yes"%string \/ div self = "no"%string ->
  exists g,
    gamma self = (Ok g, self) /\
    derivable_pt_lim (fun s => delta_call (with_So self s)) (So self) g /\
    derivable_pt_lim (fun s => delta_put (with_So self s)) (So self) g.
Proof.
  intros HK HSo HT Hmu Hrec.
  destruct (carry_benefits_recognized self Hrec) as (carry & ec & Hc & Hec).
  pose proof (vol_pos self HT Hmu) as Hv.
  pose proof (d1_d2_at_own_spot self carry ec Hc HK HSo HT Hmu) as Hd.
  set (D := d_plus_at (K self) ((r self - carry) * T self)
                      (mu self * sqrt (T self))) in *.
  eexists. split; [apply (gamma_after_d1_d2 self _ _ Hd) |].
  assert (Hsq : 0 < sqrt (T self)) by (apply sqrt_lt_R0; exact HT).
  assert (HD : derivable_pt_lim D (So self)
                 (/ (So self * (mu self * sqrt (T self)))))
    by (apply d_plus_at_derivable; [exact HK | lra | exact HSo]).
  split.
  - apply (derivable_pt_lim_local _
             (mult_real_fct (exp (- q self * T self)) (comp norm.cdf D))
             0 (So self + 1)); [lra | |].
    + intros s Hs.
      apply (delta_at_spot self carry ec Hc HK HT Hmu s). lra.
    + replace (exp (- q self * T self)
               / (So self * mu self * sqrt (T self)) * norm.pdf (D (So self)))
        with (exp (- q self * T self)
              * (norm.pdf (D (So self))
                 * / (So self * (mu self * sqrt (T self)))))
        by (field; repeat split; lra).
      apply derivable_pt_lim_scal.
      apply derivable_pt_lim_comp; [exact HD | apply cdf_derivable].
  - apply (derivable_pt_lim_local _
             (mult_real_fct (- exp (- q self * T self))
                            (comp norm.cdf (- D)%F))
             0 (So self + 1)); [lra | |].
    + intros s Hs.
      apply (delta_at_spot self carry ec Hc HK HT Hmu s). lra.
    + replace (exp (- q self * T self)
               / (So self * mu self * sqrt (T self)) * norm.pdf (D (So self)))
        with (- exp (- q self * T self)
              * (norm.pdf ((- D)%F (So self))
                 * - / (So self * (mu self * sqrt (T self)))))
        by (unfold opp_fct; rewrite pdf_even; field; repeat split; lra).
      apply derivable_pt_lim_scal.
      apply derivable_pt_lim_comp;
        [apply derivable_pt_lim_opp; exact HD | apply cdf_derivable].
Qed.

(** On the object of the [__main__] block. *)
Lemma gamma_is_delta_derivative_witness :
  exists g,
    gamma bsm = (Ok g, bsm) /\
    derivable_pt_lim (fun s => delta_call (with_So bsm s)) (So bsm) g /\
    derivable_pt_lim (fun s => delta_put (with_So bsm s)) (So bsm) g.
Proof.
  apply (gamma_is_delta_derivative bsm); try (simpl; lra).
  left. reflexivity.
Defined.

(** ** Sensitivity of the prices to the volatility *)

Lemma prices_at_volatility (self : Black_Scholes) (carry exp_carry m : R) :
  carry_benefits self = (Ok (carry, exp_carry), self) ->
  exp_carry = exp (- carry * T self) ->
  0 < K self -> 0 < So self -> 0 < T self -> 0 < m ->
  let A := So self * exp_carry in
  let B := K self * exp (- r self * T self) in
  call_price (with_mu self m)
  = call_of A B (log_moneyness self carry) (m * sqrt (T self)) /\
  put_price (with_mu self m)
  = put_of A B (log_moneyness self carry) (m * sqrt (T self)).
Proof.
  intros Hc Hec HK HSo HT Hm A B.
  pose proof (carry_benefits_transfer self (with_mu self m) carry exp_carry
                eq_refl eq_refl eq_refl Hc) as Hc'.
  unfold call_price, put_price.
  rewrite (call_put_options_valid (with_mu self m) carry exp_carry Hc' Hec
             HK HSo HT Hm).
  split; reflexivity.
Qed.

(** X12. For positive strike, spot, term and volatility and a recognised
    flag, the call price and the put price returned by [call_put_options],
    seen as functions of the volatility with the other attributes kept,
    have the same derivative at the stored volatility:
    [So * exp_carry * pdf(d1) * sqrt T]. *)
Theorem prices_volatility_derivative (self : Black_Scholes) :
  0 < K self -> 0 < So self -> 0 < T self -> 0 < mu self ->
  div self = "yes"%string \/ div self = "no"%string ->
  exists carry exp_carry d1 d2,
    carry_benefits self = (Ok (carry, exp_carry), self) /\
    d1_d2 self = (Ok (d1, d2), self) /\
    let vega := So self * exp_carry * norm.pdf d1 * sqrt (T self) in
    derivable_pt_lim (fun m => call_price (with_mu self m)) (mu self) vega /\
    derivable_pt_lim (fun m => put_price (with_mu self m)) (mu self) vega.
Proof.
  intros HK HSo HT Hmu Hrec.
  destruct (carry_benefits_recognized self Hrec) as (carry & ec & Hc & Hec).
  pose proof (vol_pos self HT Hmu) as Hv.
  pose proof (d1_d2_valid self carry ec Hc HK HSo HT Hmu) as Hd.
  cbv zeta in Hd. rewrite (d1_as_d_plus self carry HT Hmu) in Hd.
  assert (Hbal : So self * ec * exp (- log_moneyness self carry)
                 = K self * exp (- r self * T self))
    by (rewrite Hec; apply (moneyness_balance self carry HK HSo)).
  set (A := So self * ec) in *.
  set (B := K self * exp (- r self * T self)) in *.
  set (m0 := log_moneyness self carry) in *.
  exists carry, ec. do 2 eexists. split; [exact Hc |]. split; [exact Hd |].
  cbv zeta. unfold total_volatility. fold A.
  assert (Hcall : derivable_pt_lim
                    (fun m => call_of A B m0 (m * sqrt (T self))) (mu self)
                    (A * norm.pdf (d_plus m0 (mu self * sqrt (T self)))
                     * sqrt (T self))).
  { rewrite <- (vega_of_eq A B m0 Hbal (mu self * sqrt (T self)))
      by lra.
    apply (derivable_pt_lim_comp (fun m => m * sqrt (T self))
                                 (call_of A B m0)).
    - apply (derivable_pt_lim_same (fun m => m * sqrt (T self))
               (mult_real_fct (sqrt (T self)) id) (mu self) (sqrt (T self))).
      + intro y. unfold mult_real_fct, id. ring.
      + replace (sqrt (T self)) with (sqrt (T self) * 1) at 2 by ring.
        apply derivable_pt_lim_scal, derivable_pt_lim_id.
    - apply call_of_derivable. lra. }
  split.
  - apply (derivable_pt_lim_local _
             (fun m => call_of A B m0 (m * sqrt (T self)))
             0 (mu self + 1)); [lra | | exact Hcall].
    intros m Hm.
    apply (prices_at_volatility self carry ec m Hc Hec HK HSo HT). lra.
  - apply (derivable_pt_lim_local _
             (fun m => call_of A B m0 (m * sqrt (T self)) - A + B)
             0 (mu self + 1)); [lra | |].
    + intros m Hm. rewrite <- put_of_call_of.
      apply (prices_at_volatility self carry ec m Hc Hec HK HSo HT). lra.
    + replace (A * norm.pdf (d_plus m0 (mu self * sqrt (T self)))
               * sqrt (T self))
        with (A * norm.pdf (d_plus m0 (mu self * sqrt (T self)))
              * sqrt (T self) - 0 + 0) by ring.
      apply (derivable_pt_lim_plus
               (fun m => call_of A B m0 (m * sqrt (T self)) - A)
               (fct_cte B)); [| apply derivable_pt_lim_const].
      apply (derivable_pt_lim_minus
               (fun m => call_of A B m0 (m * sqrt (T self))) (fct_cte A));
        [exact Hcall | apply derivable_pt_lim_const].
Qed.

(** On the object of the [__main__] block. *)
Lemma prices_volatility_derivative_witness :
  exists carry exp_carry d1 d2,
    carry_benefits bsm = (Ok (carry, exp_carry), bsm) /\
    d1_d2 bsm = (Ok (d1, d2), bsm) /\
    let vega := So bsm * exp_carry * norm.pdf d1 * sqrt (T bsm) in
    derivable_pt_lim (fun m => call_price (with_mu bsm m)) (mu bsm) vega /\
    derivable_pt_lim (fun m => put_price (with_mu bsm m)) (mu bsm) vega.
Proof.
  apply (prices_volatility_derivative bsm); try (simpl; lra).
  left. reflexivity.
Defined.

(** ** Exchanging the two sides of the contract *)

Lemma call_of_exchanged (A B m v : R) :
  call_of B A (- m) v = put_of A B m v.
Proof.
  unfold call_of, put_of.
  replace (d_plus (- m) v) with (- d_minus m v)
    by (unfold d_plus, d_minus, Rdiv; ring).
  replace (d_minus (- m) v) with (- d_plus m v)
    by (unfold d_plus, d_minus, Rdiv; ring).
  reflexivity.
Qed.

Lemma put_of_exchanged (A B m v : R) :
  put_of B A (- m) v = call_of A B m v.
Proof.
  unfold call_of, put_of.
  replace (- d_minus (- m) v) with (d_plus m v)
    by (unfold d_plus, d_minus, Rdiv; ring).
  replace (- d_plus (- m) v) with (d_minus m v)
    by (unfold d_plus, d_minus, Rdiv; ring).
  reflexivity.
Qed.

Lemma log_moneyness_exchanged (self : Black_Scholes) :
  0 < K self -> 0 < So self ->
  log_moneyness (exchanged self) (r self)
  = - log_moneyness self (q self).
Proof.
  intros HK HSo. unfold log_moneyness. simpl.
  replace (K self / So self) with (/ (So self / K self)) by (field; lra).
  rewrite ln_Rinv by (apply Rdiv_lt_0_compat; assumption). ring.
Qed.

(** X13. Under ["yes"], for positive strike, spot, term and volatility,
    exchanging strike with spot and rate with yield exchanges the two
    prices: the call of one object is the put of the other. *)
Theorem call_put_exchange (self : Black_Scholes) :
  0 < K self -> 0 < So self -> 0 < T self -> 0 < mu self ->
  div self = "yes"%string ->
  exists call put,
    call_put_options self = (Ok (call, put), self) /\
    call_put_options (exchanged self) = (Ok (put, call), exchanged self).
Proof.
  intros HK HSo HT Hmu Hdiv.
  pose proof (call_put_options_valid self _ _ (carry_benefits_yes self Hdiv)
                eq_refl HK HSo HT Hmu) as H1.
  pose proof (call_put_options_valid (exchanged self) _ _
                (carry_benefits_yes (exchanged self) Hdiv)
                eq_refl HSo HK HT Hmu) as H2.
  cbv zeta in H1, H2.
  change (q (exchanged self)) with (r self) in H2.
  rewrite (log_moneyness_exchanged self HK HSo) in H2.
  change (So (exchanged self)) with (K self) in H2.
  change (K (exchanged self)) with (So self) in H2.
  change (r (exchanged self)) with (q self) in H2.
  change (T (exchanged self)) with (T self) in H2.
  rewrite call_of_exchanged, put_of_exchanged in H2.
  do 2 eexists. split; [exact H1 | exact H2].
Qed.

(** On the object of the [__main__] block. *)
Lemma call_put_exchange_witness :
  exists call put,
    call_put_options bsm = (Ok (call, put), bsm) /\
    call_put_options (exchanged bsm) = (Ok (put, call), exchanged bsm).
Proof.
  apply (call_put_exchange bsm); try (simpl; lra). reflexivity.
Defined.
